(** * Probabilistic matrix factorization ([pmf_cy.pyx]): a shallow embedding

    The development follows the class [ProbabilisticMatrixFactorization] of
    [src/pmf_cy.pyx] method by method.

    - Numbers.  The Cython code mixes C [float] scalars with [np.float]
      arrays.  The embedding is parametric in one carrier [F] with the
      operations the code uses ([Arith]); no algebraic law is assumed, so every
      general theorem holds for whatever rounding the operations perform.
      Closed examples run on IEEE binary64 ([PrimFloat]).
    - Indices.  The ratings array stores row and column indices in its first
      two columns; they are kept as [nat] (0-based indices).
    - Sets.  [rated] and [unrated] are Python sets of index pairs: [gset].
    - Effects.  Methods that assign to [self] are written in a state and
      exception monad over the object; read-only methods return a [result].
      [np.random.random] draws from an explicit generator state.
    - [fit_lls] is a generator: it is embedded as a transition function on its
      suspended states. *)

From Stdlib Require Import ZArith Uint63.
From Stdlib Require Import Floats.PrimFloat.
From stdpp Require Import base gmap sets list strings.

Set Default Proof Using "Type".
#[local] Set Warnings "-clear-no-such-hyp".
Local Open Scope nat_scope.

(** ** Arithmetic interface *)

Class Arith (F : Type) := {
  fadd : F → F → F;
  fsub : F → F → F;
  fmul : F → F → F;
  fdiv : F → F → F;
  fneg : F → F;
  fsqrt : F → F;
  (** [fgt a b] is the test [a > b], [flt a b] the test [a < b]. *)
  fgt : F → F → bool;
  flt : F → F → bool;
  (** conversion of an integer, as C and NumPy do in mixed expressions *)
  of_int : Z → F;
  (** [dec m e] is the decimal literal [m]e[e], e.g. [1e-4] is [dec 1 (-4)] *)
  dec : Z → Z → F;
}.

(** ** Exceptions and the two monads *)

Inductive exn :=
| TypeError
| ValueError
| AssertionError
| IndexError
| AttributeError.

Definition result (A : Type) : Type := exn + A.

Definition rbind {A B} (c : result A) (k : A → result B) : result B :=
  match c with
  | inl e => inl e
  | inr a => k a
  end.

Notation "x <- c ;; k" := (rbind c (fun x => k))
  (at level 100, c at next level, right associativity).

(** A method body run on the object state [S]: it ends with a value or with a
    raised exception, and in both cases leaves the state it has reached. *)
Definition M (S A : Type) : Type := S → result A * S.

Definition mret {S A} (a : A) : M S A := fun s => (inr a, s).
Definition mraise {S A} (e : exn) : M S A := fun s => (inl e, s).
Definition mbind {S A B} (c : M S A) (k : A → M S B) : M S B :=
  fun s => match c s with
           | (inl e, s') => (inl e, s')
           | (inr a, s') => k a s'
           end.
Definition mget {S} : M S S := fun s => (inr s, s).
Definition mmodify {S} (f : S → S) : M S unit := fun s => (inr tt, f s).
Definition mlift {S A} (c : result A) : M S A := fun s => (c, s).
Definition massert {S} (b : bool) : M S unit :=
  if b then mret tt else mraise AssertionError.

Notation "x <~ c ;; k" := (mbind c (fun x => k))
  (at level 100, c at next level, right associativity).
Notation "c ;;; k" := (mbind c (fun _ => k))
  (at level 100, right associativity).

(** Monadic left fold: a [for] loop whose body may raise. *)
Fixpoint rfold {A B} (f : A → B → result A) (l : list B) (a : A) : result A :=
  match l with
  | [] => inr a
  | x :: l' => a' <- f a x ;; rfold f l' a'
  end.

(** Maximum of an integer array; [np.max] raises [ValueError] on an empty
    one. *)
Definition amax (l : list nat) : result nat :=
  match l with
  | [] => inl ValueError
  | x :: l' => inr (foldl Nat.max x l')
  end.

Section PMF.

Context {F : Type} {arith : Arith F}.
(** The state of NumPy's global generator and one draw from it. *)
Context {rng : Type} (random_sample : rng → F * rng).

Definition fzero : F := of_int 0.
Definition fsq (x : F) : F := fmul x x.
(** A sum accumulates from zero, left to right. *)
Definition fsum (l : list F) : F := foldl fadd fzero l.

(** ** Arrays *)

(** A two-dimensional float array: its shape and its rows. *)
Record ndarray := { shape : nat * nat; data : list (list F) }.

Definition wf_array (a : ndarray) : Prop :=
  length (data a) = (shape a).1 ∧ Forall (λ r, length r = (shape a).2) (data a).

Definition asize (a : ndarray) : nat := (shape a).1 * (shape a).2.

(** One row [(i, j, rating)] of the ratings array. *)
Record rating := { r_row : nat; r_col : nat; r_val : F }.

(** The ratings array: [shape1] is [shape[1]]; the rows are read as triples,
    which the code does only after it has checked [shape1 = 3]. *)
Record rating_array := { shape1 : nat; rows : list rating }.

Definition index_pair (t : rating) : nat * nat := (r_row t, r_col t).

(** [np.append(a, b, 0)] *)
Definition append_rows (a b : rating_array) : rating_array :=
  {| shape1 := shape1 a; rows := rows a ++ rows b |}.

(** [a[i, :]] *)
Definition row (a : ndarray) (i : nat) : result (list F) :=
  match data a !! i with
  | Some r => inr r
  | None => inl IndexError
  end.

(** [np.dot] of two one-dimensional arrays *)
Definition dot (u v : list F) : result F :=
  if length u =? length v then inr (fsum (zip_with fmul u v))
  else inl ValueError.

(** elementwise map, e.g. [lr * a] or [a ** 2] *)
Definition amap (f : F → F) (a : ndarray) : ndarray :=
  {| shape := shape a; data := map (map f) (data a) |}.

(** [a.sum()] *)
Definition asum (a : ndarray) : F := fsum (concat (data a)).

(** [np.linalg.norm(a)]: the Frobenius norm *)
Definition norm (a : ndarray) : F := fsqrt (asum (amap fsq a)).

(** [a[i, :] += delta] *)
Definition row_iadd (a : ndarray) (i : nat) (delta : list F) : result ndarray :=
  match data a !! i with
  | Some r =>
      inr {| shape := shape a; data := <[i := zip_with fadd r delta]> (data a) |}
  | None => inl IndexError
  end.

(** [a[:, j]] *)
Definition col (a : ndarray) (j : nat) : list F :=
  map (λ r, nth j r fzero) (data a).

(** [a.T] *)
Definition transpose (a : ndarray) : ndarray :=
  {| shape := ((shape a).2, (shape a).1);
     data := map (col a) (seq 0 (shape a).2) |}.

(** [np.dot] of two matrices *)
Definition matmul (a b : ndarray) : result ndarray :=
  if (shape a).2 =? (shape b).1 then
    inr {| shape := ((shape a).1, (shape b).2);
           data := map (λ r, map (λ j, fsum (zip_with fmul r (col b j)))
                                 (seq 0 (shape b).2))
                       (data a) |}
  else inl ValueError.

(** NumPy broadcasting of one dimension against another. *)
Definition bdim (a b : nat) : option nat :=
  if a =? b then Some a
  else if a =? 1 then Some b
  else if b =? 1 then Some a
  else None.

(** A list of length one is repeated to length [n]; another is kept. *)
Definition stretch {A} (n : nat) (l : list A) : list A :=
  match l with
  | [x] => replicate n x
  | _ => l
  end.

Definition expand (sh : nat * nat) (a : ndarray) : list (list F) :=
  stretch sh.1 (map (stretch sh.2) (data a)).

(** [a (op) b] with broadcasting *)
Definition broadcast2 (op : F → F → F) (a b : ndarray) : result ndarray :=
  match bdim (shape a).1 (shape b).1, bdim (shape a).2 (shape b).2 with
  | Some r, Some c =>
      inr {| shape := (r, c);
             data := zip_with (zip_with op) (expand (r, c) a) (expand (r, c) b) |}
  | _, _ => inl ValueError
  end.

(** [np.random.random((n, d))] *)
Fixpoint random_row (d : nat) (g : rng) : list F * rng :=
  match d with
  | 0 => ([], g)
  | S d' =>
      let '(x, g1) := random_sample g in
      let '(r, g2) := random_row d' g1 in
      (x :: r, g2)
  end.

Fixpoint random_rows (n d : nat) (g : rng) : list (list F) * rng :=
  match n with
  | 0 => ([], g)
  | S n' =>
      let '(r, g1) := random_row d g in
      let '(rs, g2) := random_rows n' d g1 in
      (r :: rs, g2)
  end.

Definition random (sh : nat * nat) (g : rng) : ndarray * rng :=
  let '(rs, g') := random_rows sh.1 sh.2 g in
  ({| shape := sh; data := rs |}, g').

(** [set(itertools.product(range(n), range(m)))] *)
Definition grid (n m : nat) : gset (nat * nat) :=
  list_to_set (i ← seq 0 n; j ← seq 0 m; [(i, j)]).

(** ** The object *)

Record model := {
  latent_d : nat;
  num_users : nat;
  num_items : nat;
  learning_rate : F;
  min_learning_rate : F;
  stop_thresh : F;
  sigma_sq : F;
  sigma_u_sq : F;
  sigma_v_sq : F;
  ratings : rating_array;
  users : ndarray;
  items : ndarray;
  rated : gset (nat * nat);
  unrated : gset (nat * nat);
}.

(** The attributes, and assignment to one of them. *)
Inductive attr :=
| a_latent_d | a_num_users | a_num_items
| a_learning_rate | a_min_learning_rate | a_stop_thresh
| a_sigma_sq | a_sigma_u_sq | a_sigma_v_sq
| a_ratings | a_users | a_items
| a_rated | a_unrated.

Inductive value :=
| VInt (n : nat)
| VFloat (x : F)
| VRatings (a : rating_array)
| VArray (a : ndarray)
| VSet (s : gset (nat * nat)).

Definition set_latent_d (v : nat) (s : model) : model :=
  {| latent_d := v; num_users := num_users s; num_items := num_items s;
     learning_rate := learning_rate s; min_learning_rate := min_learning_rate s;
     stop_thresh := stop_thresh s; sigma_sq := sigma_sq s;
     sigma_u_sq := sigma_u_sq s; sigma_v_sq := sigma_v_sq s;
     ratings := ratings s; users := users s; items := items s;
     rated := rated s; unrated := unrated s |}.
Definition set_num_users (v : nat) (s : model) : model :=
  {| latent_d := latent_d s; num_users := v; num_items := num_items s;
     learning_rate := learning_rate s; min_learning_rate := min_learning_rate s;
     stop_thresh := stop_thresh s; sigma_sq := sigma_sq s;
     sigma_u_sq := sigma_u_sq s; sigma_v_sq := sigma_v_sq s;
     ratings := ratings s; users := users s; items := items s;
     rated := rated s; unrated := unrated s |}.
Definition set_num_items (v : nat) (s : model) : model :=
  {| latent_d := latent_d s; num_users := num_users s; num_items := v;
     learning_rate := learning_rate s; min_learning_rate := min_learning_rate s;
     stop_thresh := stop_thresh s; sigma_sq := sigma_sq s;
     sigma_u_sq := sigma_u_sq s; sigma_v_sq := sigma_v_sq s;
     ratings := ratings s; users := users s; items := items s;
     rated := rated s; unrated := unrated s |}.
Definition set_learning_rate (v : F) (s : model) : model :=
  {| latent_d := latent_d s; num_users := num_users s; num_items := num_items s;
     learning_rate := v; min_learning_rate := min_learning_rate s;
     stop_thresh := stop_thresh s; sigma_sq := sigma_sq s;
     sigma_u_sq := sigma_u_sq s; sigma_v_sq := sigma_v_sq s;
     ratings := ratings s; users := users s; items := items s;
     rated := rated s; unrated := unrated s |}.
Definition set_min_learning_rate (v : F) (s : model) : model :=
  {| latent_d := latent_d s; num_users := num_users s; num_items := num_items s;
     learning_rate := learning_rate s; min_learning_rate := v;
     stop_thresh := stop_thresh s; sigma_sq := sigma_sq s;
     sigma_u_sq := sigma_u_sq s; sigma_v_sq := sigma_v_sq s;
     ratings := ratings s; users := users s; items := items s;
     rated := rated s; unrated := unrated s |}.
Definition set_stop_thresh (v : F) (s : model) : model :=
  {| latent_d := latent_d s; num_users := num_users s; num_items := num_items s;
     learning_rate := learning_rate s; min_learning_rate := min_learning_rate s;
     stop_thresh := v; sigma_sq := sigma_sq s;
     sigma_u_sq := sigma_u_sq s; sigma_v_sq := sigma_v_sq s;
     ratings := ratings s; users := users s; items := items s;
     rated := rated s; unrated := unrated s |}.
Definition set_sigma_sq (v : F) (s : model) : model :=
  {| latent_d := latent_d s; num_users := num_users s; num_items := num_items s;
     learning_rate := learning_rate s; min_learning_rate := min_learning_rate s;
     stop_thresh := stop_thresh s; sigma_sq := v;
     sigma_u_sq := sigma_u_sq s; sigma_v_sq := sigma_v_sq s;
     ratings := ratings s; users := users s; items := items s;
     rated := rated s; unrated := unrated s |}.
Definition set_sigma_u_sq (v : F) (s : model) : model :=
  {| latent_d := latent_d s; num_users := num_users s; num_items := num_items s;
     learning_rate := learning_rate s; min_learning_rate := min_learning_rate s;
     stop_thresh := stop_thresh s; sigma_sq := sigma_sq s;
     sigma_u_sq := v; sigma_v_sq := sigma_v_sq s;
     ratings := ratings s; users := users s; items := items s;
     rated := rated s; unrated := unrated s |}.
Definition set_sigma_v_sq (v : F) (s : model) : model :=
  {| latent_d := latent_d s; num_users := num_users s; num_items := num_items s;
     learning_rate := learning_rate s; min_learning_rate := min_learning_rate s;
     stop_thresh := stop_thresh s; sigma_sq := sigma_sq s;
     sigma_u_sq := sigma_u_sq s; sigma_v_sq := v;
     ratings := ratings s; users := users s; items := items s;
     rated := rated s; unrated := unrated s |}.
Definition set_ratings (v : rating_array) (s : model) : model :=
  {| latent_d := latent_d s; num_users := num_users s; num_items := num_items s;
     learning_rate := learning_rate s; min_learning_rate := min_learning_rate s;
     stop_thresh := stop_thresh s; sigma_sq := sigma_sq s;
     sigma_u_sq := sigma_u_sq s; sigma_v_sq := sigma_v_sq s;
     ratings := v; users := users s; items := items s;
     rated := rated s; unrated := unrated s |}.
Definition set_users (v : ndarray) (s : model) : model :=
  {| latent_d := latent_d s; num_users := num_users s; num_items := num_items s;
     learning_rate := learning_rate s; min_learning_rate := min_learning_rate s;
     stop_thresh := stop_thresh s; sigma_sq := sigma_sq s;
     sigma_u_sq := sigma_u_sq s; sigma_v_sq := sigma_v_sq s;
     ratings := ratings s; users := v; items := items s;
     rated := rated s; unrated := unrated s |}.
Definition set_items (v : ndarray) (s : model) : model :=
  {| latent_d := latent_d s; num_users := num_users s; num_items := num_items s;
     learning_rate := learning_rate s; min_learning_rate := min_learning_rate s;
     stop_thresh := stop_thresh s; sigma_sq := sigma_sq s;
     sigma_u_sq := sigma_u_sq s; sigma_v_sq := sigma_v_sq s;
     ratings := ratings s; users := users s; items := v;
     rated := rated s; unrated := unrated s |}.
Definition set_rated (v : gset (nat * nat)) (s : model) : model :=
  {| latent_d := latent_d s; num_users := num_users s; num_items := num_items s;
     learning_rate := learning_rate s; min_learning_rate := min_learning_rate s;
     stop_thresh := stop_thresh s; sigma_sq := sigma_sq s;
     sigma_u_sq := sigma_u_sq s; sigma_v_sq := sigma_v_sq s;
     ratings := ratings s; users := users s; items := items s;
     rated := v; unrated := unrated s |}.
Definition set_unrated (v : gset (nat * nat)) (s : model) : model :=
  {| latent_d := latent_d s; num_users := num_users s; num_items := num_items s;
     learning_rate := learning_rate s; min_learning_rate := min_learning_rate s;
     stop_thresh := stop_thresh s; sigma_sq := sigma_sq s;
     sigma_u_sq := sigma_u_sq s; sigma_v_sq := sigma_v_sq s;
     ratings := ratings s; users := users s; items := items s;
     rated := rated s; unrated := v |}.

Definition attr_names : list (string * attr) :=
  [ ("latent_d", a_latent_d); ("num_users", a_num_users);
    ("num_items", a_num_items); ("learning_rate", a_learning_rate);
    ("min_learning_rate", a_min_learning_rate); ("stop_thresh", a_stop_thresh);
    ("sigma_sq", a_sigma_sq); ("sigma_u_sq", a_sigma_u_sq);
    ("sigma_v_sq", a_sigma_v_sq); ("ratings", a_ratings); ("users", a_users);
    ("items", a_items); ("rated", a_rated); ("unrated", a_unrated) ]%string.

Fixpoint assoc {A} (k : string) (l : list (string * A)) : option A :=
  match l with
  | [] => None
  | (k', a) :: l' => if String.eqb k k' then Some a else assoc k l'
  end.

(** Assignment converts the value to the declared type of the attribute. *)
Definition assign (a : attr) (v : value) (s : model) : result model :=
  match a, v with
  | a_latent_d, VInt n => inr (set_latent_d n s)
  | a_num_users, VInt n => inr (set_num_users n s)
  | a_num_items, VInt n => inr (set_num_items n s)
  | a_learning_rate, VFloat x => inr (set_learning_rate x s)
  | a_min_learning_rate, VFloat x => inr (set_min_learning_rate x s)
  | a_stop_thresh, VFloat x => inr (set_stop_thresh x s)
  | a_sigma_sq, VFloat x => inr (set_sigma_sq x s)
  | a_sigma_u_sq, VFloat x => inr (set_sigma_u_sq x s)
  | a_sigma_v_sq, VFloat x => inr (set_sigma_v_sq x s)
  | a_ratings, VRatings r => inr (set_ratings r s)
  | a_users, VArray x => inr (set_users x s)
  | a_items, VArray x => inr (set_items x s)
  | a_rated, VSet x => inr (set_rated x s)
  | a_unrated, VSet x => inr (set_unrated x s)
  | _, _ => inl TypeError
  end.

(** [setattr(self, k, v)] *)
Definition setattr (k : string) (v : value) : M model unit :=
  match assoc k attr_names with
  | None => mraise AttributeError
  | Some a =>
      self <~ mget ;;
      self' <~ mlift (assign a v self) ;;
      mmodify (λ _, self')
  end.

(** ** [__cinit__] and [__init__] *)

(** The object as [__cinit__] leaves it: the six scalars set, the integer
    attributes zero, and the array and set attributes not yet assigned (empty
    here). *)
Definition cinit : model :=
  {| latent_d := 0; num_users := 0; num_items := 0;
     learning_rate := dec 1 (-4);
     min_learning_rate := dec 1 (-10);
     stop_thresh := dec 1 (-2);
     sigma_sq := of_int 1;
     sigma_u_sq := of_int 10;
     sigma_v_sq := of_int 10;
     ratings := {| shape1 := 0; rows := [] |};
     users := {| shape := (0, 0); data := [] |};
     items := {| shape := (0, 0); data := [] |};
     rated := ∅; unrated := ∅ |}.

(** [__init__] runs on the new object and the global generator. *)
Definition on_self (f : model → model) : M (model * rng) unit :=
  mmodify (λ w, (f w.1, w.2)).

Definition draw (sh : nat * nat) : M (model * rng) ndarray :=
  fun w => let '(a, g') := random sh w.2 in (inr a, (w.1, g')).

Definition init (rating_tuples : rating_array) (d : nat) : M (model * rng) unit :=
  on_self (set_latent_d d) ;;;
  on_self (set_ratings rating_tuples) ;;;
  w <~ mget ;;
  if negb (shape1 (ratings w.1) =? 3) then mraise TypeError else
  mx <~ mlift (amax (map r_row (rows (ratings w.1)))) ;;
  let n := mx + 1 in
  on_self (set_num_users n) ;;;
  my <~ mlift (amax (map r_col (rows (ratings w.1)))) ;;
  let m := my + 1 in
  on_self (set_num_items m) ;;;
  on_self (λ s, set_rated (list_to_set (map index_pair (rows (ratings s)))) s) ;;;
  on_self (λ s, set_unrated (grid n m ∖ rated s) s) ;;;
  u <~ draw (n, latent_d w.1) ;;
  on_self (set_users u) ;;;
  v <~ draw (m, latent_d w.1) ;;
  on_self (set_items v).

(** [ProbabilisticMatrixFactorization(rating_tuples, latent_d)]: the object,
    unless [__init__] raised. *)
Definition construct (rating_tuples : rating_array) (d : nat) (g : rng)
  : result model * rng :=
  match init rating_tuples d (cinit, g) with
  | (inr _, (self, g')) => (inr self, g')
  | (inl e, (_, g')) => (inl e, g')
  end.

(** ** [__getstate__], [__setstate__], [__copy__] *)

Definition getstate (self : model) : list (string * value) :=
  [ ("latent_d", VInt (latent_d self));
    ("num_users", VInt (num_users self));
    ("num_items", VInt (num_items self));
    ("learning_rate", VFloat (learning_rate self));
    ("min_learning_rate", VFloat (min_learning_rate self));
    ("stop_thresh", VFloat (stop_thresh self));
    ("sigma_sq", VFloat (sigma_sq self));
    ("sigma_u_sq", VFloat (sigma_u_sq self));
    ("sigma_v_sq", VFloat (sigma_v_sq self));
    ("ratings", VRatings (ratings self));
    ("users", VArray (users self));
    ("items", VArray (items self));
    ("rated", VSet (rated self));
    ("unrated", VSet (unrated self)) ]%string.

Fixpoint setstate (state : list (string * value)) : M model unit :=
  match state with
  | [] => mret tt
  | (k, v) :: state' => setattr k v ;;; setstate state'
  end.

(** [res = type(self)(self.ratings, self.latent_d);
     res.__setstate__(res.__getstate__()); return res] *)
Definition copy (self : model) (g : rng) : result model * rng :=
  match construct (ratings self) (latent_d self) g with
  | (inr res, g') =>
      match setstate (getstate res) res with
      | (inr _, res') => (inr res', g')
      | (inl e, _) => (inl e, g')
      end
  | (inl e, g') => (inl e, g')
  end.

(** [a.copy()] and [deepcopy(state, memodict)]: new arrays and a new
    dictionary with the contents of the old ones. *)
Definition copy_ratings (a : rating_array) : rating_array :=
  {| shape1 := shape1 a; rows := rows a |}.

Definition copy_array (a : ndarray) : ndarray :=
  {| shape := shape a; data := data a |}.

Definition deepcopy_value (v : value) : value :=
  match v with
  | VInt n => VInt n
  | VFloat x => VFloat x
  | VRatings a => VRatings (copy_ratings a)
  | VArray a => VArray (copy_array a)
  | VSet s => VSet s
  end.

Definition deepcopy_state (state : list (string * value)) : list (string * value) :=
  map (λ kv, (kv.1, deepcopy_value kv.2)) state.

(** [res = type(self)(self.ratings.copy(), self.latent_d);
     res.__setstate__(deepcopy(res.__getstate__(), memodict)); return res] *)
Definition deepcopy (self : model) (g : rng) : result model * rng :=
  match construct (copy_ratings (ratings self)) (latent_d self) g with
  | (inr res, g') =>
      match setstate (deepcopy_state (getstate res)) res with
      | (inr _, res') => (inr res', g')
      | (inl e, _) => (inl e, g')
      end
  | (inl e, g') => (inl e, g')
  end.

(** ** [add_ratings] *)

Definition add_ratings (extra : rating_array) : M model unit :=
  self <~ mget ;;
  let cols := shape1 (ratings self) in
  if negb (shape1 extra =? cols) then mraise TypeError else
  mu <~ mlift (amax (map (λ t, r_row t + 1) (rows extra))) ;;
  massert (mu <=? num_users self) ;;;
  mv <~ mlift (amax (map (λ t, r_col t + 1) (rows extra))) ;;
  massert (mv <=? num_items self) ;;;
  let new_items : gset (nat * nat) := list_to_set (map index_pair (rows extra)) in
  if negb (bool_decide (new_items ⊆ unrated self)) then mraise ValueError else
  mmodify (λ s, set_rated (rated s ∪ new_items) s) ;;;
  mmodify (λ s, set_unrated (unrated s ∖ new_items) s) ;;;
  mmodify (λ s, set_ratings (append_rows (ratings s) extra) s).

Definition add_rating (i j : nat) (r : F) : M model unit :=
  add_ratings {| shape1 := 3; rows := [ {| r_row := i; r_col := j; r_val := r |} ] |}.

(** ** [log_likelihood] and [gradient] *)

Definition log_likelihood (self : model) (users_arg items_arg : option ndarray)
  : result F :=
  let users' := default (users self) users_arg in
  let items' := default (items self) items_arg in
  sq_error <-
    rfold (λ sq_error t,
             u <- row users' (r_row t) ;;
             v <- row items' (r_col t) ;;
             r_hat <- dot u v ;;
             inr (fadd sq_error (fsq (fsub (r_val t) r_hat))))
          (rows (ratings self)) fzero ;;
  let user_norm := norm users' in
  let item_norm := norm users' in
  inr (fsub (fsub (fdiv (fneg sq_error) (fmul (of_int 2) (sigma_sq self)))
                  (fdiv user_norm (fmul (of_int 2) (sigma_u_sq self))))
            (fdiv item_norm (fmul (of_int 2) (sigma_v_sq self)))).

Definition gradient (self : model) : result (ndarray * ndarray) :=
  let grad_u := amap (λ x, fdiv (fneg x) (sigma_u_sq self)) (users self) in
  let grad_v := amap (λ x, fdiv (fneg x) (sigma_v_sq self)) (items self) in
  let sig := sigma_sq self in
  rfold (λ grads t,
           u <- row (users self) (r_row t) ;;
           v <- row (items self) (r_col t) ;;
           r_hat <- dot u v ;;
           let c := fdiv (fsub (r_val t) r_hat) sig in
           grad_u <- row_iadd grads.1 (r_row t) (map (λ x, fmul x c) v) ;;
           grad_v <- row_iadd grads.2 (r_col t) (map (λ x, fmul x c) u) ;;
           inr (grad_u, grad_v))
        (rows (ratings self)) (grad_u, grad_v).

(** ** [predicted_matrix] and [rmse] *)

Definition predicted_matrix (self : model) : result ndarray :=
  matmul (users self) (transpose (items self)).

Definition rmse (self : model) (real : ndarray) : result F :=
  pred <- predicted_matrix self ;;
  diff <- broadcast2 fsub real pred ;;
  inr (fsqrt (fdiv (asum (amap fsq diff)) (of_int (Z.of_nat (asize real))))).

(** ** [fit_lls]

    The generator is either not yet started, at the top of the inner
    [while True] loop (with the learning rate, the last accepted
    log-likelihood and the gradient of the current outer iteration),
    suspended at [yield new_ll], or finished.  [step] runs the body from one
    of these points to the next. *)

Inductive gen :=
| Start
| Propose (lr old_ll : F) (grad_u grad_v : ndarray)
| Yielded (lr new_ll : F) (converged : bool)
| Finished.

(** The test of [while not converged] and, if it passes, the gradient. *)
Definition enter_loop (lr old_ll : F) (converged : bool) : M model gen :=
  if converged then mret Finished else
  self <~ mget ;;
  grads <~ mlift (gradient self) ;;
  mret (Propose lr old_ll grads.1 grads.2).

Definition step (g : gen) : M model gen :=
  match g with
  | Start =>
      self <~ mget ;;
      let lr := learning_rate self in
      old_ll <~ mlift (log_likelihood self None None) ;;
      enter_loop lr old_ll false
  | Propose lr old_ll grad_u grad_v =>
      self <~ mget ;;
      new_users <~ mlift (broadcast2 fadd (users self) (amap (fmul lr) grad_u)) ;;
      new_items <~ mlift (broadcast2 fadd (items self) (amap (fmul lr) grad_v)) ;;
      new_ll <~ mlift (log_likelihood self (Some new_users) (Some new_items)) ;;
      if fgt new_ll old_ll then
        mmodify (set_users new_users) ;;;
        mmodify (set_items new_items) ;;;
        let lr := fmul lr (dec 125 (-2)) in
        self <~ mget ;;
        mret (Yielded lr new_ll (flt (fsub new_ll old_ll) (stop_thresh self)))
      else
        let lr := fmul lr (dec 5 (-1)) in
        if flt lr (min_learning_rate self) then mret (Yielded lr new_ll true)
        else mret (Propose lr old_ll grad_u grad_v)
  | Yielded lr new_ll converged => enter_loop lr new_ll converged
  | Finished => mret Finished
  end.

(** The value a transition hands to the consumer, if it reached [yield]. *)
Definition emitted (g : gen) : list F :=
  match g with
  | Yielded _ new_ll _ => [new_ll]
  | _ => []
  end.

(** [n] transitions of the generator: the values emitted, where it stands (or
    the exception that ended it), and the object. *)
Fixpoint run (n : nat) (g : gen) (self : model) : list F * result gen * model :=
  match n with
  | 0 => ([], inr g, self)
  | S n' =>
      match step g self with
      | (inl e, self') => ([], inl e, self')
      | (inr g', self') =>
          let '(out, r, self'') := run n' g' self' in
          (emitted g' ++ out, r, self'')
      end
  end.

(** ** Predicates and reference values used in the statements *)

(** The invariant of a constructed object. *)
Record Inv (m : model) : Prop := {
  inv_shape : shape1 (ratings m) = 3;
  inv_users : ∃ mx, amax (map r_row (rows (ratings m))) = inr mx
                    ∧ num_users m = mx + 1;
  inv_items : ∃ my, amax (map r_col (rows (ratings m))) = inr my
                    ∧ num_items m = my + 1;
  inv_rated : rated m = list_to_set (map index_pair (rows (ratings m)));
  inv_unrated : unrated m = grid (num_users m) (num_items m) ∖ rated m;
}.

(** The objects a program can reach through the constructor, [add_ratings]
    and the fitting generator (whatever these calls return). *)
Inductive reachable : model → Prop :=
| reach_construct a d r r' m :
    construct a d r = (inr m, r') → reachable m
| reach_add (extra : rating_array) (m : model) res m' :
    reachable m → add_ratings extra m = (res, m') → reachable m'
| reach_step (g : gen) (m : model) res m' :
    reachable m → step g m = (res, m') → reachable m'.

(** Every index of the batch is inside the grid of the object. *)
Definition in_bounds (m : model) (extra : rating_array) : bool :=
  forallb (λ t, (r_row t <? num_users m) && (r_col t <? num_items m)) (rows extra).

(** Reading an attribute, as the value [__getstate__] stores for it. *)
Definition getattr (a : attr) (m : model) : value :=
  match a with
  | a_latent_d => VInt (latent_d m)
  | a_num_users => VInt (num_users m)
  | a_num_items => VInt (num_items m)
  | a_learning_rate => VFloat (learning_rate m)
  | a_min_learning_rate => VFloat (min_learning_rate m)
  | a_stop_thresh => VFloat (stop_thresh m)
  | a_sigma_sq => VFloat (sigma_sq m)
  | a_sigma_u_sq => VFloat (sigma_u_sq m)
  | a_sigma_v_sq => VFloat (sigma_v_sq m)
  | a_ratings => VRatings (ratings m)
  | a_users => VArray (users m)
  | a_items => VArray (items m)
  | a_rated => VSet (rated m)
  | a_unrated => VSet (unrated m)
  end.

(** The factor matrices are dense arrays of shapes [num_users x latent_d] and
    [num_items x latent_d]. *)
Definition factors_ok (m : model) : Prop :=
  wf_array (users m) ∧ wf_array (items m)
  ∧ shape (users m) = (num_users m, latent_d m)
  ∧ shape (items m) = (num_items m, latent_d m).

(** The gradient a suspended generator holds has the shapes of the factors. *)
Definition gen_ok (g : gen) (m : model) : Prop :=
  match g with
  | Propose _ _ grad_u grad_v =>
      wf_array grad_u ∧ shape grad_u = shape (users m)
      ∧ wf_array grad_v ∧ shape grad_v = shape (items m)
  | _ => True
  end.

(** The squared error of every entry: [(real[i][j] - users[i] . items[j])^2]. *)
Definition squared_errors (m : model) (real : ndarray) : list (list F) :=
  zip_with (λ rrow u,
              zip_with (λ x v, fsq (fsub x (fsum (zip_with fmul u v))))
                       rrow (data (items m)))
           (data real) (data (users m)).

(** The six configuration scalars of the object. *)
Definition config (m : model) : F * F * F * F * F * F :=
  (learning_rate m, min_learning_rate m, stop_thresh m,
   sigma_sq m, sigma_u_sq m, sigma_v_sq m).

(** The generator's local variable [lr], once it is set. *)
Definition lr_of (g : gen) : option F :=
  match g with
  | Propose lr _ _ _ | Yielded lr _ _ => Some lr
  | Start | Finished => None
  end.

(** The value the specification gives for [log_likelihood(U, V)]: the squared
    error term and two penalty terms, both the squared Frobenius norm of the
    row factors [U]. *)
Definition claimed_log_likelihood (m : model) (U V : ndarray) : result F :=
  sq_error <-
    rfold (λ sq_error t,
             u <- row U (r_row t) ;;
             v <- row V (r_col t) ;;
             r_hat <- dot u v ;;
             inr (fadd sq_error (fsq (fsub (r_val t) r_hat))))
          (rows (ratings m)) fzero ;;
  let sq_norm := asum (amap fsq U) in
  inr (fsub (fsub (fdiv (fneg sq_error) (fmul (of_int 2) (sigma_sq m)))
                  (fdiv sq_norm (fmul (of_int 2) (sigma_u_sq m))))
            (fdiv sq_norm (fmul (of_int 2) (sigma_v_sq m)))).

End PMF.

#[global] Instance attr_eq_dec : EqDecision attr.
Proof. solve_decision. Defined.

(** ** Using the object: [fit], and sequences of calls *)

Section Usage.

Context {F : Type} {arith : Arith F}.
Context {rng : Type} (random_sample : rng → F * rng).

(** [fit]: [for ll in self.fit_lls(): pass].  The loop ends when the generator
    finishes or raises; [None] when it has not done so within [fuel]
    transitions. *)
Definition fit (fuel : nat) (self : model (F := F)) : option (result unit * model) :=
  match run fuel Start self with
  | (_, inr Finished, self') => Some (inr tt, self')
  | (_, inr _, _) => None
  | (_, inl e, self') => Some (inl e, self')
  end.

(** [self.log_likelihood()] *)
Definition model_ll (m : model (F := F)) : result F := log_likelihood m None None.

(** Each value strictly exceeds the one before it, the first one [prev]. *)
Fixpoint increasing (prev : F) (l : list F) : Prop :=
  match l with
  | [] => True
  | x :: l' => fgt x prev = true ∧ increasing x l'
  end.

(** An object together with the fitting generator last obtained from it, as a
    program gets them from the constructor, [fit_lls()], [next] on the
    generator and [add_ratings]. *)
Inductive session : model (F := F) → gen (F := F) → Prop :=
| session_construct a d r r' (m : model (F := F)) :
    construct random_sample a d r = (inr m, r') → session m Finished
| session_fit_lls (m : model (F := F)) (g : gen (F := F)) :
    session m g → session m Start
| session_next (m : model (F := F)) (g g' : gen (F := F)) m' :
    session m g → step g m = (inr g', m') → session m' g'
| session_raise (m : model (F := F)) (g : gen (F := F)) e m' :
    session m g → step g m = (inl e, m') → session m' Finished
| session_add (extra : rating_array (F := F)) (m : model (F := F)) (g : gen (F := F)) res m' :
    session m g → add_ratings extra m = (res, m') → session m' g.

(** The rows of the factor matrices a rating refers to, and its residual
    [(rating - r_hat) / sigma_sq]. *)
Definition user_row (m : model (F := F)) (t : rating (F := F)) : list F :=
  default [] (data (users m) !! r_row t).
Definition item_row (m : model (F := F)) (t : rating (F := F)) : list F :=
  default [] (data (items m) !! r_col t).
Definition residual (m : model (F := F)) (t : rating (F := F)) : F :=
  fdiv (fsub (r_val t) (fsum (zip_with fmul (user_row m t) (item_row m t))))
       (sigma_sq m).

(** Row [i] of the gradient for the row factors, from row [u] of [users]: the
    prior term, then one term for each rating of row [i], in the order of the
    rating sequence.  Likewise for column [j] and row [v] of [items]. *)
Definition grad_u_row (m : model (F := F)) (i : nat) (u : list F) : list F :=
  foldl (λ acc t, zip_with fadd acc (map (λ x, fmul x (residual m t)) (item_row m t)))
        (map (λ x, fdiv (fneg x) (sigma_u_sq m)) u)
        (filter (λ t, r_row t = i) (rows (ratings m))).
Definition grad_v_row (m : model (F := F)) (j : nat) (v : list F) : list F :=
  foldl (λ acc t, zip_with fadd acc (map (λ x, fmul x (residual m t)) (user_row m t)))
        (map (λ x, fdiv (fneg x) (sigma_v_sq m)) v)
        (filter (λ t, r_col t = j) (rows (ratings m))).

(** The generator state after [k] draws. *)
Definition after_draws (k : nat) (r : rng) : rng :=
  Nat.iter k (λ r', (random_sample r').2) r.

(** The range of a C [int], the type of [latent_d], [num_users] and
    [num_items]: the constructor's arguments are in range when the latent
    dimension and, for every rating, the row and the column index plus one
    fit. *)
Definition int_max : Z := 2147483647.
Definition fits_int (n : nat) : bool := (Z.of_nat n <=? int_max)%Z.
Definition in_int_range (a : rating_array (F := F)) (d : nat) : bool :=
  fits_int d
  && forallb (λ t, fits_int (r_row t + 1) && fits_int (r_col t + 1)) (rows a).

End Usage.

(** ** A concrete arithmetic: IEEE binary64 *)

Definition float_of_Z (z : Z) : float :=
  match z with
  | Z0 => PrimFloat.zero
  | Zpos _ => PrimFloat.of_uint63 (Uint63.of_Z z)
  | Zneg p => PrimFloat.opp (PrimFloat.of_uint63 (Uint63.of_Z (Zpos p)))
  end.

(** A decimal literal with a negative exponent is the correctly rounded
    quotient of two integers (exact for the mantissas and powers of ten used
    here, which are below 2^53). *)
Definition float_dec (m e : Z) : float :=
  if (0 <=? e)%Z then float_of_Z (m * 10 ^ e)
  else PrimFloat.div (float_of_Z m) (float_of_Z (10 ^ (- e))).

#[export] Instance float_arith : Arith float := {|
  fadd := PrimFloat.add;
  fsub := PrimFloat.sub;
  fmul := PrimFloat.mul;
  fdiv := PrimFloat.div;
  fneg := PrimFloat.opp;
  fsqrt := PrimFloat.sqrt;
  fgt a b := PrimFloat.ltb b a;
  flt a b := PrimFloat.ltb a b;
  of_int := float_of_Z;
  dec := float_dec;
|}.

(** A deterministic stand-in for the generator in closed examples: the state
    is a counter, and the draws run through 0, 1/8, ..., 7/8. *)
Definition counter_sample (k : nat) : float * nat :=
  (PrimFloat.div (float_of_Z (Z.of_nat (k mod 8))) (float_of_Z 8), S k).

(** ** Closed example objects *)

Definition rt (i j : nat) (v : Z) : rating (F := float) :=
  {| r_row := i; r_col := j; r_val := float_of_Z v |}.

Definition mat (r c : nat) (d : list (list Z)) : ndarray (F := float) :=
  {| shape := (r, c); data := map (map float_of_Z) d |}.

(** The object a constructor call returns, or the blank object if it raised. *)
Definition built (a : rating_array) (d : nat) : model :=
  match construct counter_sample a d 0 with
  | (inr m, _) => m
  | (inl _, _) => cinit
  end.

(** The state an [add_ratings] call leaves behind. *)
Definition after_add (extra : rating_array) (m : model (F := float)) : model :=
  (add_ratings extra m).2.

(** The 2 x 2 example of the specification: three ratings, one latent
    dimension. *)
Definition ex_ratings : rating_array :=
  {| shape1 := 3; rows := [rt 0 0 5; rt 0 1 3; rt 1 0 4] |}.
Definition ex_model : model := built ex_ratings 1.

(** A 1 x 1 model holding the single rating [(0, 0, 0.0)]. *)
Definition one_ratings : rating_array := {| shape1 := 3; rows := [rt 0 0 0] |}.
Definition one_model (d : nat) : model := built one_ratings d.

(** The same with both factor matrices assigned zero. *)
Definition zero_model : model :=
  set_items (mat 1 1 [[0%Z]]) (set_users (mat 1 1 [[0%Z]]) (one_model 1)).

(** The example object with its learning rate assigned 0.5. *)
Definition tuned_model : model := set_learning_rate (dec 5 (-1)) ex_model.

(** Batches for [add_ratings] on [ex_model]: a rating for the one unrated
    cell; the same with a second rating for the rated cell (0, 0); a rating
    for (0, 0) with one outside the grid; a rating in row 2 of a two-row
    grid. *)
Definition ex_extra : rating_array := {| shape1 := 3; rows := [rt 1 1 2] |}.
Definition dup_extra : rating_array :=
  {| shape1 := 3; rows := [rt 1 1 2; rt 0 0 1] |}.
Definition dup_far_extra : rating_array :=
  {| shape1 := 3; rows := [rt 0 0 1; rt 5 5 1] |}.
Definition far_extra : rating_array := {| shape1 := 3; rows := [rt 2 0 1] |}.

(** Ground-truth matrices for [rmse] on [ex_model]: one of shape (1, 1) and
    one of shape (2, 2). *)
Definition real_11 : ndarray := mat 1 1 [[1%Z]].
Definition real_22 : ndarray := mat 2 2 [[5; 3]; [4; 1]]%Z.

(** Factor matrices for a 1 x 1 model with two latent dimensions: the row
    factors have Frobenius norm 5. *)
Definition U34 : ndarray := mat 1 2 [[3; 4]]%Z.
Definition V00 : ndarray := mat 1 2 [[0; 0]]%Z.

(** * Properties *)

Ltac munfold :=
  unfold mbind, mret, mraise, mget, mmodify, mlift, massert in *.

Lemma elem_of_map {A B} (f : A → B) (l : list A) (y : B) :
  y ∈ map f l ↔ ∃ x, y = f x ∧ x ∈ l.
Proof.
  rewrite list_elem_of_In, in_map_iff. split.
  - intros (x & Hx & Hin). exists x. by rewrite list_elem_of_In.
  - intros (x & Hx & Hin). exists x. by rewrite <- list_elem_of_In.
Qed.

Lemma foldl_max_spec (l : list nat) (x0 : nat) :
  (foldl Nat.max x0 l = x0 ∨ foldl Nat.max x0 l ∈ l)
  ∧ x0 ≤ foldl Nat.max x0 l
  ∧ ∀ y, y ∈ l → y ≤ foldl Nat.max x0 l.
Proof.
  revert x0. induction l as [|a l IH]; intros x0; simpl.
  - split; [by left|]. split; [lia|]. intros y Hy. by apply elem_of_nil in Hy.
  - destruct (IH (x0 `max` a)) as (Hin & Hle & Hub).
    split; [|split].
    + destruct Hin as [Heq|Hin].
      * destruct (Nat.max_spec x0 a) as [[_ Hm]|[_ Hm]].
        -- right. rewrite Heq, Hm. apply list_elem_of_here.
        -- left. by rewrite Heq.
      * right. by apply list_elem_of_further.
    + lia.
    + intros y [->|Hy]%elem_of_cons; [lia|by apply Hub].
Qed.

(** [np.max] returns an element of the array that bounds all the others. *)
Lemma amax_spec (l : list nat) (x : nat) :
  amax l = inr x ↔ x ∈ l ∧ ∀ y, y ∈ l → y ≤ x.
Proof.
  destruct l as [|a l]; simpl.
  - split; [discriminate|]. intros [H _]. by apply elem_of_nil in H.
  - destruct (foldl_max_spec l a) as (Hin & Hle & Hub). split.
    + intros [= <-]. split.
      * destruct Hin as [->|Hin]; [apply list_elem_of_here|by apply list_elem_of_further].
      * intros y [->|Hy]%elem_of_cons; [done|by apply Hub].
    + intros [Hx Hbound]. f_equal. apply Nat.le_antisymm.
      * apply Hbound. destruct Hin as [->|Hin];
          [apply list_elem_of_here|by apply list_elem_of_further].
      * apply elem_of_cons in Hx as [->|Hx]; [done|by apply Hub].
Qed.

Lemma amax_error (l : list nat) (e : exn) : amax l = inl e → l = [].
Proof. destruct l; [done|discriminate]. Qed.

Section Properties.

Context {F : Type} {arith : Arith F}.
Context {rng : Type} (random_sample : rng → F * rng).

Implicit Types (m self : model (F := F)) (extra : rating_array (F := F)).
Implicit Types (g : gen (F := F)).

Lemma elem_of_grid (n k i j : nat) : (i, j) ∈ grid n k ↔ i < n ∧ j < k.
Proof.
  unfold grid. rewrite elem_of_list_to_set, list_elem_of_bind. split.
  - intros (x & Hy & Hx). apply list_elem_of_bind in Hy as (y & Hp & Hy).
    apply list_elem_of_singleton in Hp as [= -> ->].
    apply elem_of_seq in Hx, Hy. lia.
  - intros [Hi Hj]. exists i. split; [|apply elem_of_seq; lia].
    apply list_elem_of_bind. exists j. split; [|apply elem_of_seq; lia].
    by apply list_elem_of_singleton.
Qed.

(** [__init__] path by path. *)
Lemma construct_eq (a : rating_array) (d : nat) (r : rng) :
  construct random_sample a d r =
    if negb (shape1 a =? 3) then (inl TypeError, r) else
    match amax (map r_row (rows a)) with
    | inl e => (inl e, r)
    | inr mx =>
        match amax (map r_col (rows a)) with
        | inl e => (inl e, r)
        | inr my =>
            let rated' : gset (nat * nat) := list_to_set (map index_pair (rows a)) in
            (inr {| latent_d := d; num_users := mx + 1; num_items := my + 1;
                    learning_rate := dec 1 (-4);
                    min_learning_rate := dec 1 (-10);
                    stop_thresh := dec 1 (-2);
                    sigma_sq := of_int 1;
                    sigma_u_sq := of_int 10;
                    sigma_v_sq := of_int 10;
                    ratings := a;
                    users := (random random_sample (mx + 1, d) r).1;
                    items := (random random_sample (my + 1, d)
                                (random random_sample (mx + 1, d) r).2).1;
                    rated := rated';
                    unrated := grid (mx + 1) (my + 1) ∖ rated' |},
             (random random_sample (my + 1, d)
                (random random_sample (mx + 1, d) r).2).2)
        end
    end.
Proof.
  unfold construct, init, on_self, draw. munfold. simpl.
  destruct (shape1 a =? 3); simpl; [|done].
  destruct (amax (map r_row (rows a))) as [e|mx]; simpl; [done|].
  destruct (amax (map r_col (rows a))) as [e|my]; simpl; [done|].
  destruct (random random_sample (mx + 1, d) r) as [u r1]; simpl.
  destruct (random random_sample (my + 1, d) r1) as [v r2]; simpl.
  done.
Qed.

(** [add_ratings] path by path: the state it leaves on each. *)
Lemma add_ratings_eq extra m :
  add_ratings extra m =
    let new_items : gset (nat * nat) := list_to_set (map index_pair (rows extra)) in
    if negb (shape1 extra =? shape1 (ratings m)) then (inl TypeError, m) else
    match amax (map (λ t, r_row t + 1) (rows extra)) with
    | inl e => (inl e, m)
    | inr mu =>
        if negb (mu <=? num_users m) then (inl AssertionError, m) else
        match amax (map (λ t, r_col t + 1) (rows extra)) with
        | inl e => (inl e, m)
        | inr mv =>
            if negb (mv <=? num_items m) then (inl AssertionError, m) else
            if negb (bool_decide (new_items ⊆ unrated m)) then (inl ValueError, m)
            else (inr tt,
                  set_ratings (append_rows (ratings m) extra)
                    (set_unrated (unrated m ∖ new_items)
                       (set_rated (rated m ∪ new_items) m)))
        end
    end.
Proof.
  unfold add_ratings. munfold. simpl.
  destruct (shape1 extra =? shape1 (ratings m)); simpl; [|done].
  destruct (amax (map (λ t, r_row t + 1) (rows extra))) as [e|mu]; simpl; [done|].
  destruct (mu <=? num_users m); simpl; [|done].
  destruct (amax (map (λ t, r_col t + 1) (rows extra))) as [e|mv]; simpl; [done|].
  destruct (mv <=? num_items m); simpl; [|done].
  destruct (bool_decide _); simpl; done.
Qed.

(** The generator's transitions, path by path. *)
Lemma enter_loop_eq (lr old_ll : F) (c : bool) m :
  enter_loop lr old_ll c m =
    if c then (inr Finished, m) else
    match gradient m with
    | inl e => (inl e, m)
    | inr grads => (inr (Propose lr old_ll grads.1 grads.2), m)
    end.
Proof.
  unfold enter_loop. munfold. destruct c; [done|].
  by destruct (gradient m).
Qed.

Lemma step_propose_eq (lr old_ll : F) (grad_u grad_v : ndarray) m :
  step (Propose lr old_ll grad_u grad_v) m =
    match broadcast2 fadd (users m) (amap (fmul lr) grad_u) with
    | inl e => (inl e, m)
    | inr new_users =>
        match broadcast2 fadd (items m) (amap (fmul lr) grad_v) with
        | inl e => (inl e, m)
        | inr new_items =>
            match log_likelihood m (Some new_users) (Some new_items) with
            | inl e => (inl e, m)
            | inr new_ll =>
                if fgt new_ll old_ll then
                  (inr (Yielded (fmul lr (dec 125 (-2))) new_ll
                          (flt (fsub new_ll old_ll) (stop_thresh m))),
                   set_items new_items (set_users new_users m))
                else if flt (fmul lr (dec 5 (-1))) (min_learning_rate m) then
                  (inr (Yielded (fmul lr (dec 5 (-1))) new_ll true), m)
                else (inr (Propose (fmul lr (dec 5 (-1))) old_ll grad_u grad_v), m)
            end
        end
    end.
Proof.
  unfold step. munfold.
  destruct (broadcast2 fadd (users m) _) as [e|nu]; [done|].
  destruct (broadcast2 fadd (items m) _) as [e|ni]; [done|].
  destruct (log_likelihood m (Some nu) (Some ni)) as [e|new_ll]; [done|].
  destruct (fgt new_ll old_ll); [done|].
  by destruct (flt _ _).
Qed.

(** A transition assigns at most [users] and [items]. *)
Lemma step_frame g m res m' :
  step g m = (res, m') →
  m' = m ∨ ∃ u v, m' = set_items v (set_users u m).
Proof.
  destruct g as [|lr old gu gv|lr ll c|].
  - unfold step. munfold. destruct (log_likelihood m None None) as [e|ll].
    + intros [= _ <-]. by left.
    + rewrite enter_loop_eq. simpl. destruct (gradient m); intros [= _ <-]; by left.
  - rewrite step_propose_eq.
    destruct (broadcast2 fadd (users m) _) as [e|nu]; [intros [= _ <-]; by left|].
    destruct (broadcast2 fadd (items m) _) as [e|ni]; [intros [= _ <-]; by left|].
    destruct (log_likelihood m _ _) as [e|new_ll]; [intros [= _ <-]; by left|].
    destruct (fgt new_ll old).
    + intros [= _ <-]. right. by exists nu, ni.
    + destruct (flt _ _); intros [= _ <-]; by left.
  - simpl. rewrite enter_loop_eq. destruct c; [intros [= _ <-]; by left|].
    destruct (gradient m); intros [= _ <-]; by left.
  - simpl. munfold. intros [= _ <-]. by left.
Qed.

Lemma step_error g m e m' : step g m = (inl e, m') → m' = m.
Proof.
  destruct g as [|lr old gu gv|lr ll c|].
  - unfold step. munfold. destruct (log_likelihood m None None) as [e'|ll].
    + by intros [= _ <-].
    + rewrite enter_loop_eq. simpl. destruct (gradient m); by intros [= <-].
  - rewrite step_propose_eq.
    destruct (broadcast2 fadd (users m) _) as [e'|nu]; [by intros [= _ <-]|].
    destruct (broadcast2 fadd (items m) _) as [e'|ni]; [by intros [= _ <-]|].
    destruct (log_likelihood m _ _) as [e'|new_ll]; [by intros [= _ <-]|].
    destruct (fgt new_ll old); [discriminate|].
    destruct (flt _ _); discriminate.
  - simpl. rewrite enter_loop_eq. destruct c; [discriminate|].
    destruct (gradient m); by intros [= <-].
  - simpl. munfold. discriminate.
Qed.

Lemma Inv_set_factors (u v : ndarray) m : Inv m → Inv (set_items v (set_users u m)).
Proof. intros [H1 H2 H3 H4 H5]. by constructor. Qed.

Lemma Inv_set_learning_rate (x : F) m : Inv m → Inv (set_learning_rate x m).
Proof. intros [H1 H2 H3 H4 H5]. by constructor. Qed.

Lemma construct_inv (a : rating_array) (d : nat) (r r' : rng) m :
  construct random_sample a d r = (inr m, r') → Inv m.
Proof.
  rewrite construct_eq.
  destruct (shape1 a =? 3) eqn:Hs; simpl; [|discriminate].
  destruct (amax (map r_row (rows a))) as [e|mx] eqn:Hx; [discriminate|].
  destruct (amax (map r_col (rows a))) as [e|my] eqn:Hy; [discriminate|].
  intros [= <- _]. constructor; simpl.
  - by apply Nat.eqb_eq.
  - by exists mx.
  - by exists my.
  - done.
  - done.
Qed.

(** Every index of a batch that passed the two assertions is in range. *)
Lemma amax_succ_bound (f : rating (F := F) → nat) (l : list rating) (mu n : nat) (t : rating) :
  amax (map (λ t, f t + 1) l) = inr mu → mu ≤ n → t ∈ l → f t < n.
Proof.
  intros [_ Hub]%amax_spec Hle Ht.
  assert (f t + 1 ≤ mu); [|lia].
  apply Hub, elem_of_map. by exists t.
Qed.

Lemma amax_append (f : rating (F := F) → nat) (l l' : list rating) (mx : nat) :
  amax (map f l) = inr mx → (∀ t, t ∈ l' → f t ≤ mx) →
  amax (map f (l ++ l')) = inr mx.
Proof.
  intros [Hin Hub]%amax_spec Hl'. apply amax_spec. rewrite map_app. split.
  - apply elem_of_app. by left.
  - intros y [Hy|Hy]%elem_of_app; [by apply Hub|].
    apply elem_of_map in Hy as (t & -> & Ht). by apply Hl'.
Qed.

Lemma add_ratings_inv extra m res m' :
  Inv m → add_ratings extra m = (res, m') → Inv m'.
Proof.
  intros HI. rewrite add_ratings_eq. cbv zeta.
  destruct (negb (shape1 extra =? _)); [by intros [= _ <-]|].
  destruct (amax (map (λ t, r_row t + 1) _)) as [e|mu] eqn:Hmu; [by intros [= _ <-]|].
  destruct (mu <=? num_users m) eqn:Hu; simpl; [|by intros [= _ <-]].
  destruct (amax (map (λ t, r_col t + 1) _)) as [e|mv] eqn:Hmv; [by intros [= _ <-]|].
  destruct (mv <=? num_items m) eqn:Hv; simpl; [|by intros [= _ <-]].
  destruct (bool_decide _) eqn:Hsub; simpl; [|by intros [= _ <-]].
  intros [= _ <-]. apply Nat.leb_le in Hu, Hv.
  destruct HI as [Hshape (mx & Hx & Hnx) (my & Hy & Hny) Hrated Hunrated].
  constructor; simpl.
  - done.
  - exists mx. split; [|done]. apply amax_append; [done|].
    intros t Ht. pose proof (amax_succ_bound r_row _ _ _ t Hmu Hu Ht). lia.
  - exists my. split; [|done]. apply amax_append; [done|].
    intros t Ht. pose proof (amax_succ_bound r_col _ _ _ t Hmv Hv Ht). lia.
  - rewrite map_app, list_to_set_app_L. by rewrite Hrated.
  - rewrite Hunrated. clear. set_solver.
Qed.

Lemma reachable_inv m : reachable random_sample m → Inv m.
Proof.
  induction 1 as [a d r r' m Hc|extra m res m' _ IH Ha|g m res m' _ IH Hs].
  - by eapply construct_inv.
  - by eapply add_ratings_inv.
  - apply step_frame in Hs as [->|(u & v & ->)]; [done|by apply Inv_set_factors].
Qed.

(** Every rated pair lies in the grid. *)
Lemma Inv_rated_in_grid m : Inv m → rated m ⊆ grid (num_users m) (num_items m).
Proof.
  intros [_ (mx & Hx & Hnx) (my & Hy & Hny) H4 _].
  intros [i j]. rewrite H4, elem_of_list_to_set, elem_of_map.
  intros (t & [= -> ->] & Ht). apply elem_of_grid.
  apply amax_spec in Hx as [_ Hx]. apply amax_spec in Hy as [_ Hy].
  split.
  - assert (r_row t ≤ mx); [|lia]. apply Hx, elem_of_map. by exists t.
  - assert (r_col t ≤ my); [|lia]. apply Hy, elem_of_map. by exists t.
Qed.

(** ** The rated and unrated sets *)

(** C4: for every object reached from a successful constructor call by
    [add_ratings] calls (and by fitting), the rated set and the unrated set
    are disjoint and their union is the whole grid
    [0, num_users) x [0, num_items). *)
Theorem rated_unrated_partition m :
  reachable random_sample m →
  rated m ## unrated m
  ∧ rated m ∪ unrated m = grid (num_users m) (num_items m).
Proof.
  intros HI%reachable_inv.
  pose proof (Inv_rated_in_grid m HI) as Hsub.
  destruct HI as [_ _ _ _ Hunrated]. rewrite Hunrated. split.
  - apply disjoint_difference_r1. done.
  - symmetry. by apply union_difference_L.
Qed.

Lemma in_bounds_false m extra (t : rating) :
  t ∈ rows extra → num_users m ≤ r_row t ∨ num_items m ≤ r_col t →
  in_bounds m extra = false.
Proof.
  intros Ht Hout. unfold in_bounds.
  destruct (forallb _ _) eqn:Hall; [|done].
  rewrite forallb_forall in Hall.
  apply list_elem_of_In, Hall, andb_true_iff in Ht as [H1%Nat.ltb_lt H2%Nat.ltb_lt].
  lia.
Qed.

(** The first assertion fails exactly when some row index is too large. *)
Lemma amax_succ_exceeds (f : rating (F := F) → nat) (l : list rating) (mu n : nat) :
  amax (map (λ t, f t + 1) l) = inr mu → ¬ mu ≤ n → ∃ t, t ∈ l ∧ n ≤ f t.
Proof.
  intros [Hin _]%amax_spec Hgt.
  apply elem_of_map in Hin as (t & -> & Ht). exists t. split; [done|lia].
Qed.

(** C3 (amended): for every reachable object and every batch of triples that
    contains a pair already in the rated set, [add_ratings] raises and leaves
    the object exactly as it was; the exception is the duplicate-rating
    [ValueError] when every index of the batch is inside the grid, and the
    bounds assertion's [AssertionError] otherwise. *)
Theorem add_ratings_duplicate m extra (p : nat * nat) :
  reachable random_sample m → shape1 extra = 3 →
  p ∈ map index_pair (rows extra) → p ∈ rated m →
  add_ratings extra m =
    (inl (if in_bounds m extra then ValueError else AssertionError), m).
Proof.
  intros HI%reachable_inv Hs Hp Hr. rewrite add_ratings_eq. cbv zeta.
  rewrite Hs, (inv_shape m HI). simpl.
  apply elem_of_map in Hp as (t0 & -> & Ht0).
  destruct (amax (map (λ t, r_row t + 1) _)) as [e|mu] eqn:Hmu.
  { apply amax_error in Hmu. destruct (rows extra); [by apply elem_of_nil in Ht0|done]. }
  destruct (mu <=? num_users m) eqn:Hu; simpl.
  2:{ apply Nat.leb_nle in Hu.
      destruct (amax_succ_exceeds r_row _ _ _ Hmu Hu) as (t & Ht & Hge).
      rewrite (in_bounds_false m extra t); [done|done|by left]. }
  destruct (amax (map (λ t, r_col t + 1) _)) as [e|mv] eqn:Hmv.
  { apply amax_error in Hmv. destruct (rows extra); [by apply elem_of_nil in Ht0|done]. }
  destruct (mv <=? num_items m) eqn:Hv; simpl.
  2:{ apply Nat.leb_nle in Hv.
      destruct (amax_succ_exceeds r_col _ _ _ Hmv Hv) as (t & Ht & Hge).
      rewrite (in_bounds_false m extra t); [done|done|by right]. }
  apply Nat.leb_le in Hu, Hv.
  assert (in_bounds m extra = true) as ->.
  { apply forallb_forall. intros t Ht%list_elem_of_In.
    apply andb_true_iff. split; apply Nat.ltb_lt.
    - by eapply (amax_succ_bound r_row).
    - by eapply (amax_succ_bound r_col). }
  rewrite bool_decide_eq_false_2; [done|].
  intros Hsub. specialize (Hsub (index_pair t0)).
  rewrite (inv_unrated m HI) in Hsub.
  apply elem_of_difference in Hsub as [_ Hnot]; [done|].
  apply elem_of_list_to_set, elem_of_map. by exists t0.
Qed.

(** [add_ratings] never assigns the two dimensions. *)
Lemma add_ratings_dims extra m :
  num_users (add_ratings extra m).2 = num_users m
  ∧ num_items (add_ratings extra m).2 = num_items m.
Proof.
  rewrite add_ratings_eq. cbv zeta.
  destruct (negb (shape1 extra =? _)); [done|].
  destruct (amax (map (λ t, r_row t + 1) _)); [done|].
  destruct (negb (_ <=? num_users m)); [done|].
  destruct (amax (map (λ t, r_col t + 1) _)); [done|].
  destruct (negb (_ <=? num_items m)); [done|].
  by destruct (negb (bool_decide _)).
Qed.

Lemma step_dims g m :
  num_users (step g m).2 = num_users m ∧ num_items (step g m).2 = num_items m.
Proof.
  destruct (step g m) as [res m'] eqn:Hs.
  by apply step_frame in Hs as [->|(u & v & ->)].
Qed.

(** C10: a batch of triples with a row index at or beyond [num_users], or a
    column index at or beyond [num_items], makes [add_ratings] fail on an
    assertion with the object unchanged; and no [add_ratings] call and no
    transition of the fitting generator changes [num_users] or
    [num_items]. *)
Theorem add_ratings_out_of_range m extra :
  (reachable random_sample m → shape1 extra = 3 →
   (∃ t, t ∈ rows extra ∧ (num_users m ≤ r_row t ∨ num_items m ≤ r_col t)) →
   add_ratings extra m = (inl AssertionError, m))
  ∧ num_users (add_ratings extra m).2 = num_users m
  ∧ num_items (add_ratings extra m).2 = num_items m
  ∧ ∀ g, num_users (step g m).2 = num_users m
         ∧ num_items (step g m).2 = num_items m.
Proof.
  split; [|split; [apply add_ratings_dims|split; [apply add_ratings_dims|intros g; apply step_dims]]].
  intros HI%reachable_inv Hs (t & Ht & Hout).
  rewrite add_ratings_eq. cbv zeta. rewrite Hs, (inv_shape m HI). simpl.
  destruct (amax (map (λ t, r_row t + 1) _)) as [e|mu] eqn:Hmu.
  { apply amax_error in Hmu. destruct (rows extra); [by apply elem_of_nil in Ht|done]. }
  destruct (mu <=? num_users m) eqn:Hu; simpl; [|done].
  destruct (amax (map (λ t, r_col t + 1) _)) as [e|mv] eqn:Hmv.
  { apply amax_error in Hmv. destruct (rows extra); [by apply elem_of_nil in Ht|done]. }
  destruct (mv <=? num_items m) eqn:Hv; simpl; [|done].
  apply Nat.leb_le in Hu, Hv.
  pose proof (amax_succ_bound r_row _ _ _ t Hmu Hu Ht).
  pose proof (amax_succ_bound r_col _ _ _ t Hmv Hv Ht).
  lia.
Qed.

(** ** Serialization and copying *)

(** Assigning an attribute its stored value succeeds. *)
Lemma setattr_getattr (k : string) (a : attr) m m' :
  assoc k attr_names = Some a →
  ∃ m'', setattr k (getattr a m) m' = (inr tt, m'')
         ∧ getattr a m'' = getattr a m
         ∧ ∀ b, b ≠ a → getattr b m'' = getattr b m'.
Proof.
  intros Hk. unfold setattr. rewrite Hk. munfold.
  destruct a; simpl; eexists; (split; [reflexivity|]); (split; [reflexivity|]);
    intros b Hb; by destruct b.
Qed.

(** Two objects with the same fourteen attribute values are equal. *)
Lemma model_ext m m' : (∀ a, getattr a m = getattr a m') → m = m'.
Proof.
  intros H. destruct m, m'.
  pose proof (H a_latent_d) as [= ?]. pose proof (H a_num_users) as [= ?].
  pose proof (H a_num_items) as [= ?]. pose proof (H a_learning_rate) as [= ?].
  pose proof (H a_min_learning_rate) as [= ?]. pose proof (H a_stop_thresh) as [= ?].
  pose proof (H a_sigma_sq) as [= ?]. pose proof (H a_sigma_u_sq) as [= ?].
  pose proof (H a_sigma_v_sq) as [= ?]. pose proof (H a_ratings) as [= ?].
  pose proof (H a_users) as [= ?]. pose proof (H a_items) as [= ?].
  pose proof (H a_rated) as [= ?]. pose proof (H a_unrated) as [= ?].
  by subst.
Qed.

(** Restoring a prefix of the dictionary: the attributes it names are the
    source's, the others are untouched. *)
Lemma setstate_attrs (l : list (string * attr)) m m' :
  (∀ k a, (k, a) ∈ l → assoc k attr_names = Some a) →
  ∃ m'', setstate (map (λ ka, (ka.1, getattr ka.2 m)) l) m' = (inr tt, m'')
         ∧ ∀ a, getattr a m'' = if bool_decide (a ∈ l.*2) then getattr a m
                                 else getattr a m'.
Proof.
  revert m'. induction l as [|[k a] l IH]; intros m' Hl.
  - exists m'. split; [done|]. intros a.
    rewrite bool_decide_eq_false_2; [done|]. apply not_elem_of_nil.
  - destruct (setattr_getattr k a m m') as (m1 & Hset & Ha & Hother).
    { apply Hl, list_elem_of_here. }
    destruct (IH m1) as (m2 & Hrest & Hattrs).
    { intros k' a' Hin. by apply Hl, list_elem_of_further. }
    exists m2. split.
    + cbn [map setstate fst snd]. munfold. by rewrite Hset.
    + intros b. rewrite Hattrs, fmap_cons. cbn [snd].
      destruct (decide (b ∈ l.*2)) as [Hb|Hb].
      * rewrite !bool_decide_eq_true_2; [done| |done]. by apply list_elem_of_further.
      * rewrite (bool_decide_eq_false_2 _ Hb). destruct (decide (b = a)) as [->|Hne].
        -- rewrite bool_decide_eq_true_2 by apply list_elem_of_here. done.
        -- rewrite bool_decide_eq_false_2; [by apply Hother|].
           intros [?|?]%elem_of_cons; done.
Qed.

Lemma getstate_attrs m :
  getstate m = map (λ ka, (ka.1, getattr ka.2 m)) attr_names.
Proof. reflexivity. Qed.

Lemma attr_names_complete (a : attr) : a ∈ attr_names.*2.
Proof. destruct a; simpl; repeat (first [apply list_elem_of_here|apply list_elem_of_further]). Qed.

Lemma attr_names_assoc (k : string) (a : attr) :
  (k, a) ∈ attr_names → assoc k attr_names = Some a.
Proof.
  unfold attr_names. rewrite !elem_of_cons, elem_of_nil.
  intros H. repeat (destruct H as [[= -> ->]|H]; [reflexivity|]). done.
Qed.

Lemma setstate_getstate_id m m' : setstate (getstate m) m' = (inr tt, m).
Proof.
  rewrite getstate_attrs.
  destruct (setstate_attrs attr_names m m' attr_names_assoc) as (m'' & -> & Hattrs).
  f_equal. apply model_ext. intros a. rewrite Hattrs.
  by rewrite bool_decide_eq_true_2 by apply attr_names_complete.
Qed.

(** C7: the dictionary [__getstate__] returns has one entry for every
    attribute of the class, holding that attribute's value, and
    [__setstate__] with it turns any object of the class into one equal to
    the source in all fourteen attributes. *)
Theorem setstate_getstate m :
  getstate m = map (λ ka, (ka.1, getattr ka.2 m)) attr_names
  ∧ (∀ a, a ∈ attr_names.*2)
  ∧ ∀ m', setstate (getstate m) m' = (inr tt, m).
Proof.
  split; [apply getstate_attrs|]. split; [apply attr_names_complete|].
  intros m'. rewrite getstate_attrs.
  destruct (setstate_attrs attr_names m m' attr_names_assoc) as (m'' & -> & Hattrs).
  f_equal. apply model_ext. intros a. rewrite Hattrs.
  by rewrite bool_decide_eq_true_2 by apply attr_names_complete.
Qed.

Lemma copy_ratings_id (a : rating_array (F := F)) : copy_ratings a = a.
Proof. by destruct a. Qed.

Lemma deepcopy_state_id (state : list (string * value (F := F))) :
  deepcopy_state state = state.
Proof.
  induction state as [|[k v] state IH]; [done|].
  unfold deepcopy_state in *. simpl. rewrite IH. do 2 f_equal.
  destruct v as [n|x|a|a|s]; simpl; try done.
  - by destruct a.
  - by destruct a.
Qed.

(** C9: [__copy__] and [__deepcopy__] of an object that satisfies the
    invariant of the class, whatever its six scalars and its factor matrices
    currently are, return what the constructor returns on the object's
    ratings and latent dimension (the [__setstate__] of the new object's own
    [__getstate__] changes nothing): the ratings, the rated and unrated sets
    and the dimensions are the original's, the factor matrices are fresh
    draws from the generator, and the six scalars are the defaults of
    [__cinit__], not the original's. *)
Theorem copy_reconstructs m (r : rng) :
  Inv m →
  let u := random random_sample (num_users m, latent_d m) r in
  let v := random random_sample (num_items m, latent_d m) u.2 in
  let res :=
    {| latent_d := latent_d m;
       num_users := num_users m;
       num_items := num_items m;
       learning_rate := dec 1 (-4);
       min_learning_rate := dec 1 (-10);
       stop_thresh := dec 1 (-2);
       sigma_sq := of_int 1;
       sigma_u_sq := of_int 10;
       sigma_v_sq := of_int 10;
       ratings := ratings m;
       users := u.1;
       items := v.1;
       rated := rated m;
       unrated := unrated m |} in
  construct random_sample (ratings m) (latent_d m) r = (inr res, v.2)
  ∧ copy random_sample m r = (inr res, v.2)
  ∧ deepcopy random_sample m r = (inr res, v.2).
Proof.
  intros [Hshape (mx & Hx & Hnx) (my & Hy & Hny) Hrated Hunrated] u v res.
  assert (construct random_sample (ratings m) (latent_d m) r = (inr res, v.2)) as Hc.
  { rewrite construct_eq, Hshape, Hx, Hy. simpl. subst res v u.
    rewrite Hnx, Hny. rewrite Hunrated, Hrated, Hnx, Hny. done. }
  split; [done|].
  assert (copy random_sample m r = (inr res, v.2)) as Hcopy.
  { unfold copy. rewrite Hc. by rewrite setstate_getstate_id. }
  split; [done|]. unfold deepcopy.
  rewrite copy_ratings_id, Hc, deepcopy_state_id. by rewrite setstate_getstate_id.
Qed.

(** ** [predicted_matrix] *)

Lemma lookup_map {A B} (f : A → B) (l : list A) (i : nat) :
  map f l !! i = f <$> (l !! i).
Proof. apply (list_lookup_fmap f l i). Qed.

Lemma map_nth_seq {A} (v : list A) (d : A) :
  map (λ i, nth i v d) (seq 0 (length v)) = v.
Proof.
  induction v as [|x v IH]; [done|].
  simpl. f_equal. rewrite <- fmap_S_seq.
  change (map ?f (S <$> ?l)) with (f <$> (S <$> l)).
  rewrite <- list_fmap_compose. exact IH.
Qed.

Lemma wf_array_row (a : ndarray) (i : nat) (v : list F) :
  wf_array a → data a !! i = Some v → length v = (shape a).2.
Proof.
  intros [_ Hrows] Hv. rewrite Forall_lookup in Hrows. by eapply Hrows.
Qed.

(** Column [j] of the transpose is row [j]. *)
Lemma col_transpose (a : ndarray) (j : nat) (v : list F) :
  wf_array a → data a !! j = Some v → col (transpose a) j = v.
Proof.
  intros Hwf Hv. unfold col, transpose. simpl. rewrite map_map.
  etrans; [|apply (map_nth_seq v fzero)].
  rewrite (wf_array_row a j v Hwf Hv).
  apply map_ext. intros c. apply nth_lookup_Some.
  unfold col. by rewrite lookup_map, Hv.
Qed.

Lemma map_cols_transpose {B} (f : list F → B) (a : ndarray) :
  wf_array a →
  map (λ j, f (col (transpose a) j)) (seq 0 (shape a).1) = map f (data a).
Proof.
  intros Hwf. apply list_eq. intros j. rewrite !lookup_map.
  destruct (data a !! j) as [v|] eqn:Hv; simpl.
  - assert (j < (shape a).1) as Hj.
    { destruct Hwf as [<- _]. by eapply lookup_lt_Some. }
    rewrite (lookup_seq_lt _ _ _ Hj). simpl. by rewrite (col_transpose a j v).
  - rewrite lookup_seq_ge; [done|].
    destruct Hwf as [<- _]. by apply lookup_ge_None.
Qed.

(** [np.dot(users, items.T)] row by row: entry [(i, j)] is the sum of the
    products of row [i] of [users] and row [j] of [items]. *)
Lemma predicted_matrix_eq m (n k d : nat) :
  wf_array (items m) →
  shape (users m) = (n, d) → shape (items m) = (k, d) →
  predicted_matrix m =
    inr {| shape := (n, k);
           data := map (λ u, map (λ v, fsum (zip_with fmul u v)) (data (items m)))
                       (data (users m)) |}.
Proof.
  intros Hwf Hu Hv. unfold predicted_matrix, matmul. simpl.
  rewrite Hu, Hv. simpl. rewrite Nat.eqb_refl. do 2 f_equal.
  apply map_ext. intros u.
  replace k with (shape (items m)).1 by by rewrite Hv.
  by rewrite (map_cols_transpose (λ c, fsum (zip_with fmul u c))).
Qed.

(** C8: for factor matrices of the model's shapes ([factors_ok]), whatever
    their entries, [predicted_matrix]
    returns a dense [num_users x num_items] matrix whose entry [(i, j)] is
    [np.dot] of row [i] of [users] and row [j] of [items], that is the product
    of [users] and the transpose of [items]. *)
Theorem predicted_matrix_product m :
  factors_ok m →
  ∃ P, predicted_matrix m = inr P
       ∧ shape P = (num_users m, num_items m)
       ∧ wf_array P
       ∧ ∀ i j u v,
           data (users m) !! i = Some u → data (items m) !! j = Some v →
           dot u v = inr (fsum (zip_with fmul u v))
           ∧ ∃ prow, data P !! i = Some prow
                     ∧ prow !! j = Some (fsum (zip_with fmul u v)).
Proof.
  intros (Hwu & Hwv & Hu & Hv).
  rewrite (predicted_matrix_eq m _ _ _ Hwv Hu Hv). eexists. split; [done|].
  split; [done|]. split.
  - split; simpl.
    + rewrite length_map. destruct Hwu as [-> _]. by rewrite Hu.
    + apply Forall_forall. intros prow (u & -> & _)%elem_of_map.
      rewrite length_map. destruct Hwv as [-> _]. by rewrite Hv.
  - intros i j u v Hi Hj. split.
    + unfold dot. rewrite (wf_array_row _ _ _ Hwu Hi), (wf_array_row _ _ _ Hwv Hj).
      rewrite Hu, Hv. simpl. by rewrite Nat.eqb_refl.
    + simpl. rewrite lookup_map, Hi. simpl. eexists. split; [done|].
      by rewrite lookup_map, Hj.
Qed.

(** ** [rmse] *)

Lemma bdim_None (a b : nat) : bdim a b = None ↔ a ≠ b ∧ a ≠ 1 ∧ b ≠ 1.
Proof.
  unfold bdim.
  destruct (a =? b) eqn:Hab; [apply Nat.eqb_eq in Hab|apply Nat.eqb_neq in Hab].
  { split; [discriminate|]. intros [? _]. done. }
  destruct (a =? 1) eqn:Ha; [apply Nat.eqb_eq in Ha|apply Nat.eqb_neq in Ha].
  { split; [discriminate|]. intros (_ & ? & _). done. }
  destruct (b =? 1) eqn:Hb; [apply Nat.eqb_eq in Hb|apply Nat.eqb_neq in Hb].
  { split; [discriminate|]. intros (_ & _ & ?). done. }
  done.
Qed.

Lemma bdim_same (a : nat) : bdim a a = Some a.
Proof. unfold bdim. by rewrite Nat.eqb_refl. Qed.

Lemma stretch_id {A} (n : nat) (l : list A) : length l = n → stretch n l = l.
Proof. destruct l as [|x [|y l]]; simpl; intros <-; done. Qed.

(** An array is not changed by broadcasting it to its own shape. *)
Lemma expand_id (a : ndarray (F := F)) : wf_array a → expand (shape a) a = data a.
Proof.
  intros [Hlen Hrows]. unfold expand.
  assert (map (stretch (shape a).2) (data a) = data a) as ->.
  { clear Hlen. induction Hrows as [|r l Hr _ IH]; [done|].
    simpl. by rewrite IH, stretch_id. }
  by apply stretch_id.
Qed.

Lemma broadcast2_same_shape (op : F → F → F) (a b : ndarray) :
  wf_array a → wf_array b → shape a = shape b →
  broadcast2 op a b =
    inr {| shape := shape a; data := zip_with (zip_with op) (data a) (data b) |}.
Proof.
  intros Ha Hb Hs. unfold broadcast2. rewrite <- Hs, !bdim_same.
  rewrite <- surjective_pairing, expand_id by done.
  rewrite Hs, expand_id by done. done.
Qed.

Lemma map_zip_with {A B C D} (h : C → D) (f : A → B → C) (l : list A) (k : list B) :
  map h (zip_with f l k) = zip_with (λ x y, h (f x y)) l k.
Proof.
  revert k. induction l as [|x l IH]; intros [|y k]; simpl; [done..|].
  by rewrite IH.
Qed.

(** C6 (amended): [rmse] raises (NumPy's [ValueError]) for every matrix whose
    shape cannot be broadcast against [(num_users, num_items)], that is when
    in some dimension the two lengths differ and neither is 1; for a matrix
    of shape [(num_users, num_items)] it returns the square root of the sum
    over all entries of the squared difference to the predicted entry,
    divided by the number of entries. *)
Theorem rmse_shapes m (real : ndarray) :
  factors_ok m → wf_array real →
  (((shape real).1 ≠ num_users m ∧ (shape real).1 ≠ 1 ∧ num_users m ≠ 1)
   ∨ ((shape real).2 ≠ num_items m ∧ (shape real).2 ≠ 1 ∧ num_items m ≠ 1) →
   rmse m real = inl ValueError)
  ∧ (shape real = (num_users m, num_items m) →
     rmse m real =
       inr (fsqrt (fdiv (fsum (concat (squared_errors m real)))
                        (of_int (Z.of_nat (num_users m * num_items m)))))).
Proof.
  intros (Hwu & Hwv & Hu & Hv) Hwr.
  pose proof (predicted_matrix_eq m _ _ _ Hwv Hu Hv) as Hp.
  unfold rmse. rewrite Hp. simpl. split.
  - intros Hbad. unfold broadcast2. simpl.
    destruct Hbad as [Hbad|Hbad]; apply bdim_None in Hbad; rewrite Hbad;
      [reflexivity|].
    destruct (bdim (shape real).1 (num_users m)); reflexivity.
  - intros Hs. rewrite broadcast2_same_shape; [|done| |done].
    + simpl. unfold asize. rewrite Hs. simpl. do 3 f_equal.
      unfold asum, amap, squared_errors. simpl. do 2 f_equal.
      rewrite map_zip_with.
      change (map ?f (data (users m))) with (f <$> data (users m)).
      rewrite zip_with_fmap_r. apply zip_with_ext; [|done..].
      intros rrow u. rewrite map_zip_with.
      change (map ?f (data (items m))) with (f <$> data (items m)).
      by rewrite zip_with_fmap_r.
    + split; simpl.
      * rewrite length_map. destruct Hwu as [-> _]. by rewrite Hu.
      * apply Forall_forall. intros prow (u & -> & _)%elem_of_map.
        rewrite length_map. destruct Hwv as [-> _]. by rewrite Hv.
Qed.

(** ** The shapes of the factor matrices *)

Lemma random_row_length (d : nat) (r : rng) :
  length (random_row random_sample d r).1 = d.
Proof.
  revert r. induction d as [|d IH]; intros r; simpl; [done|].
  destruct (random_sample r) as [x r1]. specialize (IH r1).
  destruct (random_row random_sample d r1) as [l r2]. simpl in *. by rewrite IH.
Qed.

Lemma random_wf (sh : nat * nat) (r : rng) :
  wf_array (random random_sample sh r).1 ∧ shape (random random_sample sh r).1 = sh.
Proof.
  unfold random. destruct sh as [n d]. simpl.
  assert (length (random_rows random_sample n d r).1 = n
          ∧ Forall (λ l, length l = d) (random_rows random_sample n d r).1) as [Hn Hd].
  { revert r. induction n as [|n IH]; intros r; simpl; [done|].
    pose proof (random_row_length d r) as Hrow.
    destruct (random_row random_sample d r) as [l r1]. destruct (IH r1) as [Hn Hd].
    destruct (random_rows random_sample n d r1) as [ls r2]. simpl in *.
    split; [by rewrite Hn|by constructor]. }
  destruct (random_rows random_sample n d r) as [ls r']. simpl in *. done.
Qed.

Lemma construct_factors_ok (a : rating_array) (d : nat) (r r' : rng) m :
  construct random_sample a d r = (inr m, r') → factors_ok m.
Proof.
  rewrite construct_eq. destruct (negb _); [discriminate|].
  destruct (amax (map r_row _)) as [e|mx]; [discriminate|].
  destruct (amax (map r_col _)) as [e|my]; [discriminate|].
  intros [= <- _]. unfold factors_ok. simpl.
  destruct (random_wf (mx + 1, d) r) as [Hu Hsu].
  destruct (random_wf (my + 1, d) (random random_sample (mx + 1, d) r).2) as [Hv Hsv].
  done.
Qed.

Lemma add_ratings_factors_ok extra m res m' :
  factors_ok m → add_ratings extra m = (res, m') → factors_ok m'.
Proof.
  intros Hm. rewrite add_ratings_eq. cbv zeta.
  destruct (negb (shape1 extra =? _)); [by intros [= _ <-]|].
  destruct (amax (map (λ t, r_row t + 1) _)); [by intros [= _ <-]|].
  destruct (negb (_ <=? num_users m)); [by intros [= _ <-]|].
  destruct (amax (map (λ t, r_col t + 1) _)); [by intros [= _ <-]|].
  destruct (negb (_ <=? num_items m)); [by intros [= _ <-]|].
  destruct (negb (bool_decide _)); by intros [= _ <-].
Qed.

(** A [for] loop that may raise keeps what every iteration keeps. *)
Lemma rfold_invariant {A B} (P : A → Prop) (f : A → B → result A)
    (l : list B) (a r : A) :
  P a → (∀ a x a', P a → f a x = inr a' → P a') → rfold f l a = inr r → P r.
Proof.
  intros Ha Hf. revert a Ha. induction l as [|x l IH]; intros a Ha; simpl.
  - by intros [= <-].
  - destruct (f a x) as [e|a'] eqn:Hax; simpl; [discriminate|].
    apply IH. by eapply Hf.
Qed.

Lemma row_iadd_wf (a a' : ndarray) (i : nat) (delta : list F) :
  wf_array a → length delta = (shape a).2 → row_iadd a i delta = inr a' →
  wf_array a' ∧ shape a' = shape a.
Proof.
  intros [Hlen Hrows] Hd. unfold row_iadd.
  destruct (data a !! i) as [r|] eqn:Hr; [|discriminate].
  intros [= <-]. split; [|done]. split; simpl.
  - by rewrite length_insert.
  - apply Forall_insert; [done|].
    rewrite length_zip_with, Hd.
    rewrite Forall_lookup in Hrows. rewrite (Hrows i r Hr). lia.
Qed.

Lemma dot_length (u v : list F) (x : F) : dot u v = inr x → length u = length v.
Proof.
  unfold dot. destruct (length u =? length v) eqn:H; [|discriminate].
  intros _. by apply Nat.eqb_eq.
Qed.

Lemma row_length (a : ndarray) (i : nat) (r : list F) :
  wf_array a → row a i = inr r → length r = (shape a).2.
Proof.
  intros Hwf. unfold row. destruct (data a !! i) as [r'|] eqn:Hr; [|discriminate].
  intros [= <-]. by eapply wf_array_row.
Qed.

Lemma amap_wf (f : F → F) (a : ndarray) : wf_array a → wf_array (amap f a).
Proof.
  intros [Hlen Hrows]. split; simpl.
  - by rewrite length_map.
  - apply Forall_forall. intros r (r0 & -> & Hr0)%elem_of_map.
    rewrite length_map. rewrite Forall_forall in Hrows. by apply Hrows.
Qed.

Lemma gradient_shapes m (grad_u grad_v : ndarray) :
  wf_array (users m) → wf_array (items m) →
  (shape (users m)).2 = (shape (items m)).2 →
  gradient m = inr (grad_u, grad_v) →
  gen_ok (Propose fzero fzero grad_u grad_v) m.
Proof.
  intros Hu Hv Hd. unfold gradient.
  apply (rfold_invariant
           (λ grads, wf_array grads.1 ∧ shape grads.1 = shape (users m)
                     ∧ wf_array grads.2 ∧ shape grads.2 = shape (items m))).
  - simpl. split; [by apply amap_wf|]. split; [done|]. split; [by apply amap_wf|done].
  - intros [gu gv] t [gu' gv'] (Hgu & Hsu & Hgv & Hsv). simpl in *.
    destruct (row (users m) (r_row t)) as [e|u] eqn:Hru; simpl; [discriminate|].
    destruct (row (items m) (r_col t)) as [e|v] eqn:Hrv; simpl; [discriminate|].
    destruct (dot u v) as [e|r_hat] eqn:Hdot; simpl; [discriminate|].
    apply dot_length in Hdot.
    apply (row_length _ _ _ Hu) in Hru. apply (row_length _ _ _ Hv) in Hrv.
    destruct (row_iadd gu _ _) as [e|gu1] eqn:H1; simpl; [discriminate|].
    destruct (row_iadd gv _ _) as [e|gv1] eqn:H2; simpl; [discriminate|].
    intros [= <- <-].
    apply row_iadd_wf in H1 as [? ?]; [|done|rewrite length_map, Hsu; lia].
    apply row_iadd_wf in H2 as [? ?]; [|done|rewrite length_map, Hsv; lia].
    split; [done|]. split; [congruence|]. split; [done|congruence].
Qed.

Lemma zip_with_rows_wf (op : F → F → F) (n d : nat) (l k : list (list F)) :
  length l = n → length k = n →
  Forall (λ r, length r = d) l → Forall (λ r, length r = d) k →
  length (zip_with (zip_with op) l k) = n
  ∧ Forall (λ r, length r = d) (zip_with (zip_with op) l k).
Proof.
  intros Hl Hk Fl Fk. split; [rewrite length_zip_with; lia|].
  clear Hl Hk. revert k Fk. induction Fl as [|r l Hr _ IH]; intros k Fk; [done|].
  destruct Fk as [|r' k Hr' Fk]; [done|]. simpl. constructor; [|by apply IH].
  rewrite length_zip_with. lia.
Qed.

(** A step along a gradient of the factor's shape gives a matrix of that
    shape. *)
Lemma broadcast2_step_wf (a grad : ndarray) (lr : F) :
  wf_array a → wf_array grad → shape grad = shape a →
  ∃ a', broadcast2 fadd a (amap (fmul lr) grad) = inr a'
        ∧ wf_array a' ∧ shape a' = shape a.
Proof.
  intros Ha Hg Hs. rewrite broadcast2_same_shape; [|done|by apply amap_wf|done].
  eexists. split; [done|]. split; [|done].
  destruct Ha as [Hla Hra]. destruct (amap_wf (fmul lr) grad Hg) as [Hlg Hrg].
  simpl in Hlg, Hrg. rewrite Hs in Hlg, Hrg.
  by apply zip_with_rows_wf.
Qed.

(** Every transition keeps the shapes of the factor matrices. *)
Lemma step_factors_ok g m g' m' :
  factors_ok m → gen_ok g m → step g m = (inr g', m') →
  factors_ok m' ∧ gen_ok g' m'.
Proof.
  intros Hm Hg.
  assert (∀ lr ll c, enter_loop lr ll c m = (inr g', m') →
                     factors_ok m' ∧ gen_ok g' m') as Henter.
  { intros lr ll c. rewrite enter_loop_eq. destruct c; [by intros [= <- <-]|].
    destruct (gradient m) as [e|[gu gv]] eqn:Hgr; [discriminate|].
    intros [= <- <-]. split; [done|].
    destruct Hm as (Hu & Hv & Hsu & Hsv).
    apply (gradient_shapes m gu gv Hu Hv); [by rewrite Hsu, Hsv|done]. }
  destruct g as [|lr old gu gv|lr ll c|].
  - unfold step. munfold.
    destruct (log_likelihood m None None) as [e|ll]; [discriminate|]. apply Henter.
  - rewrite step_propose_eq.
    destruct Hm as (Hu & Hv & Hsu & Hsv). destruct Hg as (Hgu & Hgsu & Hgv & Hgsv).
    destruct (broadcast2_step_wf (users m) gu lr Hu Hgu Hgsu) as (nu & -> & Hnu & Hsnu).
    destruct (broadcast2_step_wf (items m) gv lr Hv Hgv Hgsv) as (ni & -> & Hni & Hsni).
    destruct (log_likelihood m _ _) as [e|new_ll]; [discriminate|].
    destruct (fgt new_ll old).
    + intros [= <- <-]. split; [|done]. unfold factors_ok. simpl.
      rewrite Hsnu, Hsni. done.
    + destruct (flt _ _); intros [= <- <-]; done.
  - simpl. apply Henter.
  - simpl. munfold. by intros [= <- <-].
Qed.

(** Fitting a constructed object, for any number of transitions, leaves
    factor matrices of the shapes [predicted_matrix] and [rmse] expect. *)
Lemma run_factors_ok (n : nat) g m :
  factors_ok m → gen_ok g m → factors_ok (run n g m).2.
Proof.
  revert g m. induction n as [|n IH]; intros g m Hm Hg; simpl; [done|].
  destruct (step g m) as [[e|g'] m'] eqn:Hs; simpl.
  - by apply step_error in Hs as ->.
  - destruct (step_factors_ok g m g' m' Hm Hg Hs) as [Hm' Hg'].
    specialize (IH g' m' Hm' Hg').
    by destruct (run n g' m') as [[out r] m''].
Qed.

(** ** [fit_lls] *)

Lemma step_config g m : config (step g m).2 = config m.
Proof.
  destruct (step g m) as [res m'] eqn:Hs.
  by apply step_frame in Hs as [->|(u & v & ->)].
Qed.

Lemma run_config (n : nat) g m : config (run n g m).2 = config m.
Proof.
  revert g m. induction n as [|n IH]; intros g m; simpl; [done|].
  pose proof (step_config g m) as Hs.
  destruct (step g m) as [[e|g'] m']; simpl in *; [done|].
  specialize (IH g' m').
  destruct (run n g' m') as [[out r] m'']. simpl in *. congruence.
Qed.

(** C5 (amended): the learning rate that [fit_lls] adapts is its local
    variable [lr]: it starts as the object's [learning_rate], is multiplied by
    1.25 when a proposal is accepted and by 0.5 when one is rejected, and is
    carried unchanged across a [yield].  The object's [learning_rate]
    attribute and the five other configuration scalars keep their values
    through any number of transitions of the generator. *)
Theorem fit_lls_learning_rate m :
  (∀ n g, config (run n g m).2 = config m)
  ∧ (∀ g' m', step Start m = (inr g', m') → lr_of g' = Some (learning_rate m))
  ∧ (∀ lr old_ll grad_u grad_v g' m',
       step (Propose lr old_ll grad_u grad_v) m = (inr g', m') →
       ∃ new_users new_items new_ll,
         broadcast2 fadd (users m) (amap (fmul lr) grad_u) = inr new_users
         ∧ broadcast2 fadd (items m) (amap (fmul lr) grad_v) = inr new_items
         ∧ log_likelihood m (Some new_users) (Some new_items) = inr new_ll
         ∧ if fgt new_ll old_ll
           then m' = set_items new_items (set_users new_users m)
                ∧ lr_of g' = Some (fmul lr (dec 125 (-2)))
                ∧ emitted g' = [new_ll]
           else m' = m ∧ lr_of g' = Some (fmul lr (dec 5 (-1))))
  ∧ (∀ lr new_ll c g' m',
       step (Yielded lr new_ll c) m = (inr g', m') →
       g' = Finished ∨ lr_of g' = Some lr).
Proof.
  split; [intros n g; apply run_config|]. split; [|split].
  - intros g' m'. unfold step. munfold.
    destruct (log_likelihood m None None) as [e|ll]; [discriminate|].
    rewrite enter_loop_eq. simpl.
    destruct (gradient m) as [e|grads]; [discriminate|]. by intros [= <- _].
  - intros lr old_ll grad_u grad_v g' m'. rewrite step_propose_eq.
    destruct (broadcast2 fadd (users m) _) as [e|nu]; [discriminate|].
    destruct (broadcast2 fadd (items m) _) as [e|ni]; [discriminate|].
    destruct (log_likelihood m _ _) as [e|new_ll] eqn:Hll; [discriminate|].
    intros Hs. exists nu, ni, new_ll. do 3 (split; [done|]).
    destruct (fgt new_ll old_ll).
    + by injection Hs as <- <-.
    + destruct (flt _ _); by injection Hs as <- <-.
  - intros lr new_ll c g' m'. simpl. rewrite enter_loop_eq.
    destruct c; [intros [= <- _]; by left|].
    destruct (gradient m) as [e|grads]; [discriminate|].
    intros [= <- _]. by right.
Qed.

(** ** [log_likelihood] *)

(** The penalty terms the code computes are the norm of [U], not its square:
    the two values differ exactly in [fsqrt]. *)
Lemma log_likelihood_eq m (U V : ndarray) :
  log_likelihood m (Some U) (Some V) =
    (sq_error <-
       rfold (λ sq_error t,
                u <- row U (r_row t) ;;
                v <- row V (r_col t) ;;
                r_hat <- dot u v ;;
                inr (fadd sq_error (fsq (fsub (r_val t) r_hat))))
             (rows (ratings m)) fzero ;;
     let norm_u := fsqrt (asum (amap fsq U)) in
     inr (fsub (fsub (fdiv (fneg sq_error) (fmul (of_int 2) (sigma_sq m)))
                     (fdiv norm_u (fmul (of_int 2) (sigma_u_sq m))))
               (fdiv norm_u (fmul (of_int 2) (sigma_v_sq m))))).
Proof. reflexivity. Qed.

Lemma rfold_ext {A B} (f f' : A → B → result A) (l : list B) (a : A) :
  (∀ a x, x ∈ l → f a x = f' a x) → rfold f l a = rfold f' l a.
Proof.
  revert a. induction l as [|x l IH]; intros a Hf; simpl; [done|].
  rewrite (Hf a x) by apply list_elem_of_here.
  destruct (f' a x) as [e|a']; simpl; [done|].
  apply IH. intros a0 y Hy. by apply Hf, list_elem_of_further.
Qed.

(** The column factors enter [log_likelihood] through the predictions only:
    two matrices with the same rows at the rated columns give the same
    value, whatever their norms. *)
Theorem log_likelihood_ignores_item_norm m (U V V' : ndarray) :
  (∀ t, t ∈ rows (ratings m) → row V (r_col t) = row V' (r_col t)) →
  log_likelihood m (Some U) (Some V) = log_likelihood m (Some U) (Some V').
Proof.
  intros HV. rewrite !log_likelihood_eq. f_equal.
  apply rfold_ext. intros sq_error t Ht. by rewrite (HV t Ht).
Qed.

(** A value reaches [yield] from a proposal in one of two ways: the proposal
    was accepted, and then it strictly exceeds the last accepted
    log-likelihood; or it was rejected, [lr] halved below
    [min_learning_rate], the generator is marked converged and the object is
    as before. *)
Theorem step_propose_yield (lr old_ll : F) (grad_u grad_v : ndarray) m lr' new_ll c m' :
  step (Propose lr old_ll grad_u grad_v) m = (inr (Yielded lr' new_ll c), m') →
  (fgt new_ll old_ll = true ∧ lr' = fmul lr (dec 125 (-2)))
  ∨ (fgt new_ll old_ll = false ∧ c = true ∧ m' = m
     ∧ lr' = fmul lr (dec 5 (-1))
     ∧ flt lr' (min_learning_rate m) = true).
Proof.
  rewrite step_propose_eq.
  destruct (broadcast2 fadd (users m) _) as [e|nu]; [discriminate|].
  destruct (broadcast2 fadd (items m) _) as [e|ni]; [discriminate|].
  destruct (log_likelihood m _ _) as [e|ll]; [discriminate|].
  destruct (fgt ll old_ll) eqn:Hgt.
  - intros [= <- <- _ _]. by left.
  - destruct (flt _ _) eqn:Hlt; [|discriminate].
    intros [= <- <- <- <-]. by right.
Qed.

End Properties.

(** * Closed instances on binary64 *)

Lemma ex_model_reachable : reachable counter_sample ex_model.
Proof.
  apply (reach_construct counter_sample ex_ratings 1 0 4).
  vm_compute. reflexivity.
Defined.

Lemma ex_model_factors_ok : factors_ok ex_model.
Proof.
  apply (construct_factors_ok counter_sample ex_ratings 1 0 4).
  vm_compute. reflexivity.
Defined.

Lemma rated_unrated_partition_witness :
  reachable counter_sample (after_add ex_extra ex_model)
  ∧ rated (after_add ex_extra ex_model) ## unrated (after_add ex_extra ex_model)
  ∧ rated (after_add ex_extra ex_model) ∪ unrated (after_add ex_extra ex_model)
    = grid (num_users (after_add ex_extra ex_model))
           (num_items (after_add ex_extra ex_model)).
Proof.
  assert (reachable counter_sample (after_add ex_extra ex_model)) as H.
  { apply (reach_add counter_sample ex_extra ex_model (inr tt));
      [exact ex_model_reachable|]. vm_compute. reflexivity. }
  split; [exact H|].
  exact (rated_unrated_partition counter_sample _ H).
Defined.

(** A batch that holds the rated pair (0, 0) and the pair (5, 5), outside the
    2 x 2 grid: the call fails on the assertion, not with the
    duplicate-rating [ValueError]. *)
Lemma add_ratings_duplicate_out_of_range :
  reachable counter_sample ex_model
  ∧ (0, 0) ∈ rated ex_model
  ∧ (0, 0) ∈ map index_pair (rows dup_far_extra)
  ∧ add_ratings dup_far_extra ex_model = (inl AssertionError, ex_model)
  ∧ add_ratings dup_far_extra ex_model ≠ (inl ValueError, ex_model).
Proof.
  split; [exact ex_model_reachable|]. split; [vm_compute; reflexivity|].
  split; [apply list_elem_of_here|].
  assert (add_ratings dup_far_extra ex_model = (inl AssertionError, ex_model)) as H
    by (vm_compute; reflexivity).
  split; [exact H|]. rewrite H. discriminate.
Qed.

Lemma add_ratings_duplicate_witness :
  reachable counter_sample ex_model
  ∧ shape1 dup_extra = 3
  ∧ (0, 0) ∈ map index_pair (rows dup_extra)
  ∧ (0, 0) ∈ rated ex_model
  ∧ add_ratings dup_extra ex_model = (inl ValueError, ex_model).
Proof.
  assert ((0, 0) ∈ map index_pair (rows dup_extra)) as Hin
    by (apply list_elem_of_further, list_elem_of_here).
  assert ((0, 0) ∈ rated ex_model) as Hr by (vm_compute; reflexivity).
  split; [exact ex_model_reachable|]. split; [reflexivity|].
  split; [exact Hin|]. split; [exact Hr|].
  exact (add_ratings_duplicate counter_sample ex_model dup_extra (0, 0)
           ex_model_reachable eq_refl Hin Hr).
Defined.

Lemma add_ratings_out_of_range_witness :
  reachable counter_sample ex_model
  ∧ shape1 far_extra = 3
  ∧ rt 2 0 1 ∈ rows far_extra
  ∧ num_users ex_model ≤ r_row (rt 2 0 1)
  ∧ add_ratings far_extra ex_model = (inl AssertionError, ex_model)
  ∧ num_users (add_ratings ex_extra ex_model).2 = num_users ex_model.
Proof.
  assert (rt 2 0 1 ∈ rows far_extra) as Hin by apply list_elem_of_here.
  assert (num_users ex_model ≤ r_row (rt 2 0 1)) as Hle by (vm_compute; lia).
  split; [exact ex_model_reachable|]. split; [reflexivity|].
  split; [exact Hin|]. split; [exact Hle|]. split.
  - apply (proj1 (add_ratings_out_of_range counter_sample ex_model far_extra));
      [exact ex_model_reachable|reflexivity|].
    exists (rt 2 0 1). split; [exact Hin|]. left. exact Hle.
  - exact (proj1 (proj2 (add_ratings_out_of_range counter_sample ex_model ex_extra))).
Defined.

Lemma tuned_model_inv : Inv tuned_model.
Proof.
  exact (Inv_set_learning_rate _ ex_model
           (reachable_inv counter_sample ex_model ex_model_reachable)).
Defined.

Lemma copy_reconstructs_witness :
  Inv tuned_model
  ∧ fgt (learning_rate tuned_model) (dec 1 (-4)) = true
  ∧ ∃ res r', copy counter_sample tuned_model 4 = (inr res, r')
              ∧ construct counter_sample (ratings tuned_model) (latent_d tuned_model) 4
                = (inr res, r')
              ∧ ratings res = ratings tuned_model
              ∧ rated res = rated tuned_model
              ∧ unrated res = unrated tuned_model
              ∧ users res
                = (random counter_sample (num_users tuned_model, latent_d tuned_model) 4).1
              ∧ learning_rate res = dec 1 (-4).
Proof.
  split; [exact tuned_model_inv|]. split; [vm_compute; reflexivity|].
  destruct (copy_reconstructs counter_sample tuned_model 4 tuned_model_inv)
    as (Hc & Hcopy & _).
  eexists _, _. split; [exact Hcopy|]. split; [exact Hc|].
  do 4 (split; [vm_compute; reflexivity|]). vm_compute. reflexivity.
Defined.

Lemma predicted_matrix_product_witness :
  factors_ok ex_model
  ∧ ∃ P, predicted_matrix ex_model = inr P ∧ shape P = (2, 2).
Proof.
  split; [exact ex_model_factors_ok|].
  destruct (predicted_matrix_product ex_model ex_model_factors_ok)
    as (P & HP & Hs & _).
  exists P. split; [exact HP|exact Hs].
Defined.

(** A ground-truth matrix of shape (1, 1) against a 2 x 2 model: the shapes
    differ, and [rmse] returns a number. *)
Lemma rmse_broadcast_shape :
  factors_ok ex_model
  ∧ wf_array real_11
  ∧ shape real_11 ≠ (num_users ex_model, num_items ex_model)
  ∧ ∃ x, rmse ex_model real_11 = inr x.
Proof.
  split; [exact ex_model_factors_ok|].
  split; [split; [reflexivity|repeat constructor]|].
  split; [vm_compute; discriminate|].
  eexists. vm_compute. reflexivity.
Qed.

Lemma rmse_shapes_witness :
  factors_ok ex_model ∧ wf_array real_22
  ∧ shape real_22 = (num_users ex_model, num_items ex_model)
  ∧ rmse ex_model real_22 =
      inr (fsqrt (fdiv (fsum (concat (squared_errors ex_model real_22)))
                       (of_int 4))).
Proof.
  assert (wf_array real_22) as Hw by (split; [reflexivity|repeat constructor]).
  split; [exact ex_model_factors_ok|]. split; [exact Hw|].
  split; [reflexivity|].
  exact (proj2 (rmse_shapes ex_model real_22 ex_model_factors_ok Hw) eq_refl).
Defined.

(** One accepted step on [ex_model]: the generator's [lr] is 1.25 times the
    object's [learning_rate], and the attribute itself has not moved. *)
Lemma fit_lls_learning_rate_attribute :
  ∃ new_ll c m',
    run 2 Start ex_model
      = ([new_ll],
         inr (Yielded (fmul (learning_rate ex_model) (dec 125 (-2))) new_ll c), m')
    ∧ fgt new_ll (fneg (of_int 25)) = true
    ∧ learning_rate m' = learning_rate ex_model
    ∧ fgt (fmul (learning_rate ex_model) (dec 125 (-2))) (learning_rate m') = true.
Proof.
  eexists _, _, _. split; [vm_compute; reflexivity|].
  repeat split; vm_compute; reflexivity.
Qed.

(** C1 (failing input): for the 1 x 1 model with the rating (0, 0, 0.0) and the
    supplied matrices U = [[3, 4]], V = [[0, 0]], the code returns -0.5: its
    penalty terms are 5 / 20, the Frobenius norm of U over twice the prior
    variance.  The value the claim states, with the squared norm 25, is
    -2.5. *)
Theorem log_likelihood_unsquared_norm :
  log_likelihood (one_model 2) (Some U34) (Some V00) = inr (fneg (dec 5 (-1)))
  ∧ claimed_log_likelihood (one_model 2) U34 V00 = inr (fneg (dec 25 (-1)))
  ∧ norm U34 = of_int 5
  ∧ asum (amap fsq U34) = of_int 25.
Proof. repeat split; vm_compute; reflexivity. Qed.

(** C2 (failing input): on the 1 x 1 model with the rating (0, 0, 0.0) and zero
    factor matrices no proposal improves the log-likelihood; after twenty
    halvings [lr] is below [min_learning_rate], and the generator still
    yields the log-likelihood of the rejected proposal, which does not exceed
    the initial log-likelihood, before it finishes.  The object is
    unchanged. *)
Theorem fit_lls_emits_rejected :
  ∃ old_ll lr,
    log_likelihood zero_model None None = inr old_ll
    ∧ run 21 Start zero_model = ([old_ll], inr (Yielded lr old_ll true), zero_model)
    ∧ run 22 Start zero_model = ([old_ll], inr Finished, zero_model)
    ∧ flt lr (min_learning_rate zero_model) = true
    ∧ fgt old_ll old_ll = false.
Proof.
  eexists _, _. split; [vm_compute; reflexivity|].
  repeat split; vm_compute; reflexivity.
Qed.

Lemma log_likelihood_ignores_item_norm_witness :
  (∀ t, t ∈ rows (ratings (one_model 2)) →
        row V00 (r_col t) = row (mat 2 2 [[0; 0]; [7; 7]]%Z) (r_col t))
  ∧ log_likelihood (one_model 2) (Some U34) (Some V00)
    = log_likelihood (one_model 2) (Some U34) (Some (mat 2 2 [[0; 0]; [7; 7]]%Z)).
Proof.
  assert (∀ t, t ∈ rows (ratings (one_model 2)) →
               row V00 (r_col t) = row (mat 2 2 [[0; 0]; [7; 7]]%Z) (r_col t)) as H.
  { intros t Ht. apply list_elem_of_singleton in Ht as ->. reflexivity. }
  split; [exact H|].
  exact (log_likelihood_ignores_item_norm (one_model 2) U34 V00 _ H).
Defined.

Lemma step_propose_yield_witness :
  ∃ lr' new_ll c m',
    step (Propose (dec 1 (-4)) (of_int (-1)) (mat 1 1 [[0%Z]]) (mat 1 1 [[0%Z]]))
         zero_model
      = (inr (Yielded lr' new_ll c), m')
    ∧ ((fgt new_ll (of_int (-1)) = true ∧ lr' = fmul (dec 1 (-4)) (dec 125 (-2)))
       ∨ (fgt new_ll (of_int (-1)) = false ∧ c = true ∧ m' = zero_model
          ∧ lr' = fmul (dec 1 (-4)) (dec 5 (-1))
          ∧ flt lr' (min_learning_rate zero_model) = true)).
Proof.
  eexists _, _, _, _.
  refine ((λ H, conj H (step_propose_yield _ _ _ _ _ _ _ _ _ H)) _).
  vm_compute. reflexivity.
Defined.

(** * Further properties of the class *)

Section MoreProperties.

Context {F : Type} {arith : Arith F}.
Context {rng : Type} (random_sample : rng → F * rng).

Implicit Types (m self : model (F := F)) (extra : rating_array (F := F)).
Implicit Types (g : gen (F := F)) (t : rating (F := F)).

(** ** Facts that follow from the invariant *)

Lemma Inv_rows_in_range m t :
  Inv m → t ∈ rows (ratings m) →
  r_row t < num_users m ∧ r_col t < num_items m.
Proof.
  intros [_ (mx & Hx & Hnx) (my & Hy & Hny) _ _] Ht.
  apply amax_spec in Hx as [_ Hx]. apply amax_spec in Hy as [_ Hy].
  split.
  - assert (r_row t ≤ mx); [|lia]. apply Hx, elem_of_map. by exists t.
  - assert (r_col t ≤ my); [|lia]. apply Hy, elem_of_map. by exists t.
Qed.

Lemma Inv_unrated_in_grid m (p : nat * nat) :
  Inv m → p ∈ unrated m → p.1 < num_users m ∧ p.2 < num_items m.
Proof.
  intros HI Hp. rewrite (inv_unrated m HI) in Hp.
  apply elem_of_difference in Hp as [Hg _]. destruct p as [i j].
  by apply elem_of_grid in Hg.
Qed.

Lemma elem_of_pairs (l : list (rating (F := F))) (i j : nat) :
  (i, j) ∈ list_to_set (C := gset (nat * nat)) (map index_pair l)
  ↔ ∃ t, t ∈ l ∧ r_row t = i ∧ r_col t = j.
Proof.
  rewrite elem_of_list_to_set, elem_of_map. split.
  - intros (t & [= -> ->] & Ht). by exists t.
  - intros (t & Ht & <- & <-). by exists t.
Qed.

(** The dimensions are tight: every rating lies inside them, and the last
    row and the last column each hold a rating. *)
Theorem dimensions_tight m :
  reachable random_sample m →
  (∀ t, t ∈ rows (ratings m) → r_row t < num_users m ∧ r_col t < num_items m)
  ∧ (∃ t, t ∈ rows (ratings m) ∧ r_row t + 1 = num_users m)
  ∧ (∃ t, t ∈ rows (ratings m) ∧ r_col t + 1 = num_items m).
Proof.
  intros HI%reachable_inv. split; [intros t Ht; by apply Inv_rows_in_range|].
  destruct HI as [_ (mx & Hx & Hnx) (my & Hy & Hny) _ _].
  apply amax_spec in Hx as [Hx _]. apply amax_spec in Hy as [Hy _].
  apply elem_of_map in Hx as (tx & -> & Htx).
  apply elem_of_map in Hy as (ty & -> & Hty).
  split; [exists tx|exists ty]; (split; [done|lia]).
Qed.

(** The rated set holds exactly the index pairs of the rating sequence, and
    the unrated set exactly the cells of the grid without a rating. *)
Theorem rated_mirrors_ratings m (i j : nat) :
  reachable random_sample m →
  ((i, j) ∈ rated m ↔ ∃ t, t ∈ rows (ratings m) ∧ r_row t = i ∧ r_col t = j)
  ∧ ((i, j) ∈ unrated m ↔
       i < num_users m ∧ j < num_items m
       ∧ ¬ ∃ t, t ∈ rows (ratings m) ∧ r_row t = i ∧ r_col t = j).
Proof.
  intros HI%reachable_inv.
  assert ((i, j) ∈ rated m ↔ ∃ t, t ∈ rows (ratings m) ∧ r_row t = i ∧ r_col t = j)
    as Hrated by (rewrite (inv_rated m HI); apply elem_of_pairs).
  split; [done|].
  rewrite (inv_unrated m HI), elem_of_difference, elem_of_grid, Hrated. tauto.
Qed.

(** ** [add_ratings]: failures and successes *)

(** Every failure of [add_ratings] leaves the object as it was, and the
    exception tells the cause: [TypeError] for a batch that is not an array of
    triples, [AssertionError] for an index outside the grid, [ValueError] for
    an empty batch or a pair that is not unrated. *)
Theorem add_ratings_failure m extra e m' :
  reachable random_sample m →
  add_ratings extra m = (inl e, m') →
  m' = m
  ∧ match e with
    | TypeError => shape1 extra ≠ 3
    | AssertionError =>
        ∃ t, t ∈ rows extra ∧ (num_users m ≤ r_row t ∨ num_items m ≤ r_col t)
    | ValueError =>
        rows extra = [] ∨ ∃ t, t ∈ rows extra ∧ index_pair t ∉ unrated m
    | _ => False
    end.
Proof.
  intros HI%reachable_inv. rewrite add_ratings_eq. cbv zeta.
  rewrite (inv_shape m HI).
  destruct (shape1 extra =? 3) eqn:Hs; simpl.
  2:{ intros [= <- <-]. split; [done|]. by apply Nat.eqb_neq. }
  destruct (amax (map (λ t, r_row t + 1) _)) as [e'|mu] eqn:Hmu.
  { intros [= <- <-]. split; [done|]. pose proof Hmu as Hnil%amax_error.
    apply map_eq_nil in Hnil. rewrite Hnil in Hmu. simpl in Hmu.
    injection Hmu as <-. by left. }
  destruct (mu <=? num_users m) eqn:Hu; simpl.
  2:{ intros [= <- <-]. split; [done|]. apply Nat.leb_nle in Hu.
      apply amax_spec in Hmu as [Hin _].
      apply elem_of_map in Hin as (t & -> & Ht). exists t. split; [done|]. lia. }
  destruct (amax (map (λ t, r_col t + 1) _)) as [e'|mv] eqn:Hmv.
  { intros [= <- <-]. split; [done|]. pose proof Hmv as Hnil%amax_error.
    apply map_eq_nil in Hnil. rewrite Hnil in Hmv. simpl in Hmv.
    injection Hmv as <-. by left. }
  destruct (mv <=? num_items m) eqn:Hv; simpl.
  2:{ intros [= <- <-]. split; [done|]. apply Nat.leb_nle in Hv.
      apply amax_spec in Hmv as [Hin _].
      apply elem_of_map in Hin as (t & -> & Ht). exists t. split; [done|]. lia. }
  destruct (bool_decide _) eqn:Hsub; simpl; [discriminate|].
  intros [= <- <-]. split; [done|]. right.
  apply bool_decide_eq_false in Hsub.
  destruct (decide (Forall (λ t, index_pair t ∈ unrated m) (rows extra))) as [Hall|Hex].
  - exfalso. apply Hsub. intros p Hp.
    apply elem_of_list_to_set, elem_of_map in Hp as (t & -> & Ht).
    rewrite Forall_forall in Hall. by apply Hall.
  - apply not_Forall_Exists in Hex; [|intros t; apply _].
    apply Exists_exists in Hex as (t & Ht & Hnot). by exists t.
Qed.

Lemma amax_cons_total (l : list nat) : l ≠ [] → ∃ x, amax l = inr x.
Proof. destruct l; [done|]. intros _. by eexists. Qed.

(** When [add_ratings] goes through. *)
Lemma add_ratings_ok m extra :
  Inv m → shape1 extra = 3 → rows extra ≠ [] →
  (∀ t, t ∈ rows extra → index_pair t ∈ unrated m) →
  add_ratings extra m =
    (inr tt,
     set_ratings (append_rows (ratings m) extra)
       (set_unrated (unrated m ∖ list_to_set (map index_pair (rows extra)))
          (set_rated (rated m ∪ list_to_set (map index_pair (rows extra))) m))).
Proof.
  intros HI Hs Hne Hun. rewrite add_ratings_eq. cbv zeta.
  rewrite Hs, (inv_shape m HI). simpl.
  destruct (amax_cons_total (map (λ t, r_row t + 1) (rows extra))) as (mu & Hmu).
  { by destruct (rows extra). }
  destruct (amax_cons_total (map (λ t, r_col t + 1) (rows extra))) as (mv & Hmv).
  { by destruct (rows extra). }
  rewrite Hmu, Hmv.
  assert (mu ≤ num_users m) as Hu.
  { apply amax_spec in Hmu as [Hin _]. apply elem_of_map in Hin as (t & -> & Ht).
    pose proof (Inv_unrated_in_grid m _ HI (Hun t Ht)) as [? _]. simpl in *. lia. }
  assert (mv ≤ num_items m) as Hv.
  { apply amax_spec in Hmv as [Hin _]. apply elem_of_map in Hin as (t & -> & Ht).
    pose proof (Inv_unrated_in_grid m _ HI (Hun t Ht)) as [_ ?]. simpl in *. lia. }
  apply Nat.leb_le in Hu, Hv. rewrite Hu, Hv. simpl.
  rewrite bool_decide_eq_true_2; [done|].
  intros p Hp. apply elem_of_list_to_set, elem_of_map in Hp as (t & -> & Ht).
  by apply Hun.
Qed.

(** [add_ratings] succeeds exactly on a non-empty batch of triples all of
    whose cells are unrated; it then appends the batch to the rating
    sequence, moves its cells from the unrated to the rated set, and leaves
    the factor matrices, the dimensions and the scalars alone. *)
Theorem add_ratings_success m extra :
  reachable random_sample m →
  ((add_ratings extra m).1 = inr tt
   ↔ shape1 extra = 3 ∧ rows extra ≠ []
     ∧ ∀ t, t ∈ rows extra → index_pair t ∈ unrated m)
  ∧ ∀ m', add_ratings extra m = (inr tt, m') →
      rows (ratings m') = rows (ratings m) ++ rows extra
      ∧ (∀ p, p ∈ rated m' ↔ p ∈ rated m ∨ p ∈ map index_pair (rows extra))
      ∧ (∀ p, p ∈ unrated m' ↔ p ∈ unrated m ∧ p ∉ map index_pair (rows extra))
      ∧ users m' = users m ∧ items m' = items m
      ∧ config m' = config m ∧ latent_d m' = latent_d m.
Proof.
  intros Hr. pose proof (reachable_inv random_sample m Hr) as HI. split.
  - split.
    + destruct (add_ratings extra m) as [[e|[]] m'] eqn:Ha; simpl; [discriminate|].
      intros _. revert Ha. rewrite add_ratings_eq. cbv zeta.
      rewrite (inv_shape m HI).
      destruct (shape1 extra =? 3) eqn:Hs; simpl; [|discriminate].
      destruct (amax (map (λ t, r_row t + 1) _)) as [e'|mu] eqn:Hmu; [discriminate|].
      destruct (negb (mu <=? num_users m)); [discriminate|].
      destruct (amax (map (λ t, r_col t + 1) _)) as [e'|mv]; [discriminate|].
      destruct (negb (mv <=? num_items m)); [discriminate|].
      destruct (bool_decide _) eqn:Hsub; simpl; [|discriminate].
      intros _. apply bool_decide_eq_true in Hsub.
      split; [by apply Nat.eqb_eq|]. split.
      * intros Hnil. by rewrite Hnil in Hmu.
      * intros t Ht. apply Hsub, elem_of_list_to_set, elem_of_map. by exists t.
    + intros (Hs & Hne & Hun). by rewrite add_ratings_ok.
  - intros m' Ha.
    assert (shape1 extra = 3 ∧ rows extra ≠ []
            ∧ ∀ t, t ∈ rows extra → index_pair t ∈ unrated m) as (Hs & Hne & Hun).
    { revert Ha. rewrite add_ratings_eq. cbv zeta. rewrite (inv_shape m HI).
      destruct (shape1 extra =? 3) eqn:Hs; simpl; [|discriminate].
      destruct (amax (map (λ t, r_row t + 1) _)) as [e'|mu] eqn:Hmu; [discriminate|].
      destruct (negb (mu <=? num_users m)); [discriminate|].
      destruct (amax (map (λ t, r_col t + 1) _)) as [e'|mv]; [discriminate|].
      destruct (negb (mv <=? num_items m)); [discriminate|].
      destruct (bool_decide _) eqn:Hsub; simpl; [|discriminate].
      intros _. apply bool_decide_eq_true in Hsub.
      split; [by apply Nat.eqb_eq|]. split.
      * intros Hnil. by rewrite Hnil in Hmu.
      * intros t Ht. apply Hsub, elem_of_list_to_set, elem_of_map. by exists t. }
    rewrite add_ratings_ok in Ha by done. injection Ha as <-. simpl.
    split; [done|]. split; [|split; [|done]].
    + intros p. by rewrite elem_of_union, elem_of_list_to_set.
    + intros p. by rewrite elem_of_difference, elem_of_list_to_set.
Qed.

(** Rating an unrated cell with [add_rating] succeeds, and rating the same
    cell again then fails with [ValueError] and changes nothing. *)
Theorem add_rating_twice m (i j : nat) (r r' : F) :
  reachable random_sample m → (i, j) ∈ unrated m →
  ∃ m1, add_rating i j r m = (inr tt, m1)
        ∧ (i, j) ∈ rated m1 ∧ ((i, j) ∉ unrated m1)
        ∧ (rows (ratings m1)
           = rows (ratings m) ++ [ {| r_row := i; r_col := j; r_val := r |} ])
        ∧ add_rating i j r' m1 = (inl ValueError, m1).
Proof.
  intros HI%reachable_inv Hun. unfold add_rating.
  set (t := {| r_row := i; r_col := j; r_val := r |}).
  assert (add_ratings {| shape1 := 3; rows := [t] |} m = (inr tt,
            set_ratings (append_rows (ratings m) {| shape1 := 3; rows := [t] |})
              (set_unrated (unrated m ∖ {[ (i, j) ]})
                 (set_rated (rated m ∪ {[ (i, j) ]}) m)))) as Ha.
  { rewrite add_ratings_ok; [|done|done|done|].
    - simpl. unfold index_pair. simpl. by rewrite !union_empty_r_L.
    - intros t0 ->%list_elem_of_singleton. done. }
  eexists. split; [exact Ha|].
  pose proof (add_ratings_inv _ _ _ _ HI Ha) as HI1.
  set (m1 := set_ratings _ _) in *.
  assert ((i, j) ∈ rated m1) as Hr1 by (simpl; set_solver).
  assert ((i, j) ∉ unrated m1) as Hu1 by (simpl; set_solver).
  split; [done|]. split; [done|]. split; [done|].
  rewrite add_ratings_eq. cbv zeta. rewrite (inv_shape m1 HI1). simpl.
  pose proof (Inv_rated_in_grid m1 HI1 _ Hr1) as [Hi Hj]%elem_of_grid.
  simpl in Hi, Hj. simpl.
  assert ((i + 1 <=? num_users m) = true) as -> by (apply Nat.leb_le; lia).
  assert ((j + 1 <=? num_items m) = true) as -> by (apply Nat.leb_le; lia).
  simpl. rewrite bool_decide_eq_false_2; [done|].
  intros Hsub. apply Hu1, Hsub. unfold index_pair. simpl. set_solver.
Qed.

(** ** The constructor *)

Lemma random_row_draws (d : nat) (r : rng) :
  (random_row random_sample d r).2 = after_draws random_sample d r.
Proof.
  unfold after_draws. revert r. induction d as [|d IH]; intros r; [done|].
  rewrite Nat.iter_succ_r. simpl.
  destruct (random_sample r) as [x r1]. specialize (IH r1).
  destruct (random_row random_sample d r1) as [l r2]. done.
Qed.

Lemma random_draws (sh : nat * nat) (r : rng) :
  (random random_sample sh r).2 = after_draws random_sample (sh.1 * sh.2) r.
Proof.
  unfold random. destruct sh as [n d]. simpl.
  assert ((random_rows random_sample n d r).2 = after_draws random_sample (n * d) r) as <-.
  { revert r. induction n as [|n IH]; intros r; [done|]. simpl.
    pose proof (random_row_draws d r) as Hrow.
    destruct (random_row random_sample d r) as [l r1]. specialize (IH r1).
    destruct (random_rows random_sample n d r1) as [ls r2]. simpl in *.
    rewrite IH, Hrow. unfold after_draws.
    rewrite (Nat.add_comm d), Nat.iter_add. done. }
  by destruct (random_rows random_sample n d r).
Qed.

(** On arguments in the range of a C [int] (the latent dimension, and one
    more than every row and column index, are at most [2^31 - 1]; beyond it
    the conversion to the [int] attributes overflows, which [construct] does
    not model), the constructor raises [TypeError] for an array that does not
    have three columns and [ValueError] for one without rows, in both cases
    before it draws a random number; otherwise it returns an object with the
    given ratings and latent dimension, the default scalars, and factor
    matrices of shapes [num_users x latent_d] and [num_items x latent_d], for
    which it draws [(num_users + num_items) * latent_d] numbers. *)
Theorem construct_outcome (a : rating_array) (d : nat) (r : rng) :
  in_int_range a d = true →
  match construct random_sample a d r with
  | (inl e, r') =>
      r' = r
      ∧ ((e = TypeError ∧ shape1 a ≠ 3)
         ∨ (e = ValueError ∧ shape1 a = 3 ∧ rows a = []))
  | (inr m, r') =>
      shape1 a = 3 ∧ rows a ≠ []
      ∧ ratings m = a ∧ latent_d m = d
      ∧ config m = config cinit
      ∧ factors_ok m
      ∧ r' = after_draws random_sample ((num_users m + num_items m) * d) r
  end.
Proof.
  intros _.
  destruct (construct random_sample a d r) as [[e|m] r'] eqn:Hc.
  - revert Hc. rewrite construct_eq.
    destruct (shape1 a =? 3) eqn:Hs; simpl.
    2:{ intros [= <- <-]. split; [done|]. left. split; [done|]. by apply Nat.eqb_neq. }
    apply Nat.eqb_eq in Hs.
    destruct (amax (map r_row (rows a))) as [e'|mx] eqn:Hx.
    { intros [= <- <-]. split; [done|]. right.
      pose proof Hx as Hnil%amax_error. apply map_eq_nil in Hnil.
      rewrite Hnil in Hx. by injection Hx as <-. }
    destruct (amax (map r_col (rows a))) as [e'|my] eqn:Hy; [|discriminate].
    intros [= <- <-]. split; [done|]. right.
    pose proof Hy as Hnil%amax_error. apply map_eq_nil in Hnil.
    rewrite Hnil in Hy. by injection Hy as <-.
  - pose proof (construct_factors_ok random_sample a d r r' m Hc) as Hok.
    revert Hc. rewrite construct_eq.
    destruct (shape1 a =? 3) eqn:Hs; simpl; [|discriminate].
    apply Nat.eqb_eq in Hs.
    destruct (amax (map r_row (rows a))) as [e'|mx] eqn:Hx; [discriminate|].
    destruct (amax (map r_col (rows a))) as [e'|my] eqn:Hy; [discriminate|].
    intros [= <- <-]. simpl. split; [done|]. split.
    { intros Hnil. by rewrite Hnil in Hx. }
    do 4 (split; [done|]).
    rewrite !random_draws. simpl. unfold after_draws.
    rewrite <- Nat.iter_add. f_equal. lia.
Qed.

(** ** Counting cells *)

Lemma length_pairs (l l' : list nat) :
  length (i ← l; j ← l'; [(i, j)]) = length l * length l'.
Proof.
  induction l as [|i l IH]; [done|].
  rewrite bind_cons, length_app, IH. simpl. f_equal.
  clear. induction l' as [|j l' IH']; [done|].
  rewrite bind_cons. simpl. by rewrite IH'.
Qed.

Lemma grid_size (n k : nat) : size (grid n k) = n * k.
Proof.
  unfold grid. rewrite size_list_to_set.
  - by rewrite length_pairs, !length_seq.
  - apply NoDup_bind; [| |apply NoDup_seq].
    + intros i1 i2 p _ _ (j1 & Hp1 & _)%list_elem_of_bind (j2 & Hp2 & _)%list_elem_of_bind.
      apply list_elem_of_singleton in Hp1, Hp2. congruence.
    + intros i _. apply NoDup_bind; [| |apply NoDup_seq].
      * intros j1 j2 p _ _ Hp1%list_elem_of_singleton Hp2%list_elem_of_singleton.
        congruence.
      * intros j _. apply NoDup_singleton.
Qed.

(** The rated and the unrated cells together are as many as the grid has
    cells, and there are at most as many rated cells as ratings. *)
Theorem cell_count m :
  reachable random_sample m →
  size (rated m) + size (unrated m) = num_users m * num_items m
  ∧ size (rated m) ≤ length (rows (ratings m)).
Proof.
  intros HI%reachable_inv. split.
  - rewrite <- grid_size.
    pose proof (Inv_rated_in_grid m HI) as Hsub.
    rewrite (inv_unrated m HI).
    rewrite size_difference by done.
    pose proof (subseteq_size _ _ Hsub). lia.
  - rewrite (inv_rated m HI).
    etrans; [|by rewrite <- (length_map index_pair)].
    generalize (map index_pair (rows (ratings m))) as l. clear.
    induction l as [|p l IH].
    + by rewrite list_to_set_nil, size_empty.
    + rewrite list_to_set_cons, size_union_alt, size_singleton.
      assert (list_to_set l ∖ {[p]} ⊆ list_to_set (C := gset (nat * nat)) l) as Hsub
        by (clear; set_solver).
      apply subseteq_size in Hsub. simpl. lia.
Qed.

(** ** [__setstate__] on arbitrary dictionaries *)

Lemma setstate_app (l1 l2 : list (string * value)) m :
  setstate (l1 ++ l2) m =
    match setstate l1 m with
    | (inr _, m1) => setstate l2 m1
    | (inl e, m1) => (inl e, m1)
    end.
Proof.
  revert m. induction l1 as [|[k v] l1 IH]; intros m; simpl; [done|].
  munfold. destruct (setattr k v m) as [[e|[]] m0]; [done|]. apply IH.
Qed.

Lemma setattr_frame (k : string) (v : value) m res m' (a : attr) :
  setattr k v m = (res, m') → assoc k attr_names ≠ Some a →
  getattr a m' = getattr a m.
Proof.
  unfold setattr. destruct (assoc k attr_names) as [b|]; munfold.
  - intros Hset Hne. assert (b ≠ a) as Hba by congruence. revert Hset.
    destruct b, v; simpl; intros [= _ <-]; try done; by destruct a.
  - by intros [= _ <-].
Qed.

(** [__setstate__] assigns in the order of the dictionary and stops at the
    first key that is not an attribute of the class: it raises
    [AttributeError], and the attributes assigned before that keep their
    new values. *)
Theorem setstate_unknown_key (l rest : list (string * value)) (k : string)
    (v : value) m m1 :
  setstate l m = (inr tt, m1) → assoc k attr_names = None →
  setstate (l ++ (k, v) :: rest) m = (inl AttributeError, m1).
Proof.
  intros Hl Hk. rewrite setstate_app, Hl. simpl. munfold.
  unfold setattr. rewrite Hk. done.
Qed.

(** [__setstate__] touches only the attributes its dictionary names, whether
    it returns or raises. *)
Theorem setstate_frame (l : list (string * value)) m res m' (a : attr) :
  setstate l m = (res, m') →
  (∀ k v, (k, v) ∈ l → assoc k attr_names ≠ Some a) →
  getattr a m' = getattr a m.
Proof.
  revert m. induction l as [|[k v] l IH]; intros m; simpl.
  - munfold. by intros [= _ <-].
  - munfold. intros Hset Hl.
    destruct (setattr k v m) as [[e|[]] m0] eqn:Hk.
    + injection Hset as _ <-.
      apply (setattr_frame k v m _ _ a Hk). apply (Hl k v), list_elem_of_here.
    + rewrite (IH m0 Hset).
      * apply (setattr_frame k v m _ _ a Hk). apply (Hl k v), list_elem_of_here.
      * intros k' v' Hin. apply (Hl k' v'). by apply list_elem_of_further.
Qed.

(** ** No exception on a constructed object *)

Lemma rfold_total {A B} (P : A → Prop) (f : A → B → result A) (l : list B) (a : A) :
  P a → (∀ a x, x ∈ l → P a → ∃ a', f a x = inr a' ∧ P a') →
  ∃ r, rfold f l a = inr r ∧ P r.
Proof.
  revert a. induction l as [|x l IH]; intros a Ha Hf; simpl.
  - by exists a.
  - destruct (Hf a x) as (a' & -> & Ha'); [apply list_elem_of_here|done|]. simpl.
    apply IH; [done|]. intros a0 y Hy. by apply Hf, list_elem_of_further.
Qed.

Lemma row_total (a : ndarray (F := F)) (n d i : nat) :
  wf_array a → shape a = (n, d) → i < n →
  ∃ u, row a i = inr u ∧ length u = d.
Proof.
  intros Hwf Hs Hi. unfold row.
  destruct (data a !! i) as [u|] eqn:Hu.
  - exists u. split; [done|]. rewrite (wf_array_row a i u Hwf Hu). by rewrite Hs.
  - apply lookup_ge_None in Hu. destruct Hwf as [Hlen _]. rewrite Hlen, Hs in Hu.
    simpl in Hu. lia.
Qed.

Lemma dot_total (u v : list F) :
  length u = length v → dot u v = inr (fsum (zip_with fmul u v)).
Proof. intros H. unfold dot. rewrite H. by rewrite Nat.eqb_refl. Qed.

Lemma log_likelihood_total m (U V : ndarray) (d : nat) :
  Inv m → wf_array U → wf_array V →
  shape U = (num_users m, d) → shape V = (num_items m, d) →
  ∃ x, log_likelihood m (Some U) (Some V) = inr x.
Proof.
  intros HI HU HV HsU HsV. rewrite log_likelihood_eq.
  destruct (rfold_total (λ _, True)
              (λ sq_error t,
                 u <- row U (r_row t) ;;
                 v <- row V (r_col t) ;;
                 r_hat <- dot u v ;;
                 inr (fadd sq_error (fsq (fsub (r_val t) r_hat))))
              (rows (ratings m)) fzero I) as (sq & -> & _).
  - intros a t Ht _.
    destruct (Inv_rows_in_range m t HI Ht) as [Hi Hj].
    destruct (row_total U _ _ _ HU HsU Hi) as (u & -> & Hu).
    destruct (row_total V _ _ _ HV HsV Hj) as (v & -> & Hv). simpl.
    rewrite dot_total by congruence. simpl. by eexists.
  - simpl. by eexists.
Qed.

Lemma row_iadd_total (a : ndarray (F := F)) (n d i : nat) (delta : list F) :
  wf_array a → shape a = (n, d) → i < n → length delta = d →
  ∃ a', row_iadd a i delta = inr a' ∧ wf_array a' ∧ shape a' = shape a.
Proof.
  intros Hwf Hs Hi Hd. destruct (row_total a n d i Hwf Hs Hi) as (u & Hu & _).
  unfold row in Hu. unfold row_iadd.
  destruct (data a !! i) as [r|] eqn:Hr; [|discriminate].
  eexists. split; [done|].
  apply (row_iadd_wf a _ i delta Hwf); [by rewrite Hs|].
  unfold row_iadd. by rewrite Hr.
Qed.

Lemma gradient_total m :
  Inv m → factors_ok m → ∃ grads, gradient m = inr grads.
Proof.
  intros HI (Hu & Hv & Hsu & Hsv). unfold gradient.
  destruct (rfold_total
              (λ grads : ndarray * ndarray,
                 wf_array grads.1 ∧ shape grads.1 = shape (users m)
                 ∧ wf_array grads.2 ∧ shape grads.2 = shape (items m))
              (λ grads t,
                 u <- row (users m) (r_row t) ;;
                 v <- row (items m) (r_col t) ;;
                 r_hat <- dot u v ;;
                 let c := fdiv (fsub (r_val t) r_hat) (sigma_sq m) in
                 grad_u <- row_iadd grads.1 (r_row t) (map (λ x, fmul x c) v) ;;
                 grad_v <- row_iadd grads.2 (r_col t) (map (λ x, fmul x c) u) ;;
                 inr (grad_u, grad_v))
              (rows (ratings m))
              (amap (λ x, fdiv (fneg x) (sigma_u_sq m)) (users m),
               amap (λ x, fdiv (fneg x) (sigma_v_sq m)) (items m)))
    as (grads & Hg & _).
  - simpl. split; [by apply amap_wf|]. split; [done|]. split; [by apply amap_wf|done].
  - intros [gu gv] t Ht (Hgu & Hsgu & Hgv & Hsgv). simpl in *.
    destruct (Inv_rows_in_range m t HI Ht) as [Hi Hj].
    destruct (row_total _ _ _ _ Hu Hsu Hi) as (u & -> & Hlu).
    destruct (row_total _ _ _ _ Hv Hsv Hj) as (v & -> & Hlv). simpl.
    rewrite dot_total by congruence. simpl.
    destruct (row_iadd_total gu (num_users m) (latent_d m) (r_row t)
                (map (λ x, fmul x (fdiv (fsub (r_val t) (fsum (zip_with fmul u v)))
                                        (sigma_sq m))) v))
      as (gu' & -> & Hgu' & Hsgu'); [done|congruence|done|by rewrite length_map|].
    destruct (row_iadd_total gv (num_items m) (latent_d m) (r_col t)
                (map (λ x, fmul x (fdiv (fsub (r_val t) (fsum (zip_with fmul u v)))
                                        (sigma_sq m))) u))
      as (gv' & -> & Hgv' & Hsgv'); [done|congruence|done|by rewrite length_map|].
    simpl. eexists. split; [done|]. simpl.
    split; [done|]. split; [congruence|]. split; [done|congruence].
  - by exists grads.
Qed.

Lemma step_total g m :
  Inv m → factors_ok m → gen_ok g m → ∃ g' m', step g m = (inr g', m').
Proof.
  intros HI Hm Hg.
  assert (∀ lr ll c, ∃ g' m', enter_loop lr ll c m = (inr g', m')) as Henter.
  { intros lr ll c. rewrite enter_loop_eq. destruct c; [by eexists _, _|].
    destruct (gradient_total m HI Hm) as (grads & ->). by eexists _, _. }
  destruct g as [|lr old gu gv|lr ll c|].
  - unfold step. munfold.
    destruct Hm as (Hu & Hv & Hsu & Hsv).
    destruct (log_likelihood_total m (users m) (items m) (latent_d m) HI Hu Hv Hsu Hsv)
      as (ll & Hll).
    change (log_likelihood m None None) with (log_likelihood m (Some (users m)) (Some (items m))).
    rewrite Hll. apply Henter.
  - rewrite step_propose_eq.
    destruct Hm as (Hu & Hv & Hsu & Hsv). destruct Hg as (Hgu & Hgsu & Hgv & Hgsv).
    destruct (broadcast2_step_wf (users m) gu lr Hu Hgu Hgsu) as (nu & -> & Hnu & Hsnu).
    destruct (broadcast2_step_wf (items m) gv lr Hv Hgv Hgsv) as (ni & -> & Hni & Hsni).
    destruct (log_likelihood_total m nu ni (latent_d m) HI Hnu Hni) as (ll & ->);
      [congruence|congruence|].
    destruct (fgt ll old); [by eexists _, _|].
    destruct (flt _ _); by eexists _, _.
  - simpl. apply Henter.
  - simpl. munfold. by eexists _, _.
Qed.

Lemma add_ratings_factors extra m res m' :
  add_ratings extra m = (res, m') → users m' = users m ∧ items m' = items m.
Proof.
  rewrite add_ratings_eq. cbv zeta.
  destruct (negb (shape1 extra =? _)); [by intros [= _ <-]|].
  destruct (amax (map (λ t, r_row t + 1) _)); [by intros [= _ <-]|].
  destruct (negb (_ <=? num_users m)); [by intros [= _ <-]|].
  destruct (amax (map (λ t, r_col t + 1) _)); [by intros [= _ <-]|].
  destruct (negb (_ <=? num_items m)); [by intros [= _ <-]|].
  destruct (negb (bool_decide _)); by intros [= _ <-].
Qed.

Lemma session_inv m g :
  session random_sample m g → Inv m ∧ factors_ok m ∧ gen_ok g m.
Proof.
  induction 1 as [a d r r' m Hc|m g _ IH|m g g' m' _ IH Hs|m g e m' _ IH Hs
                  |extra m g res m' _ IH Ha].
  - split; [by eapply construct_inv|]. split; [by eapply construct_factors_ok|done].
  - destruct IH as (HI & Hm & _). done.
  - destruct IH as (HI & Hm & Hg).
    destruct (step_factors_ok g m g' m' Hm Hg Hs) as [Hm' Hg'].
    split; [|done].
    apply step_frame in Hs as [->|(u & v & ->)]; [done|by apply Inv_set_factors].
  - destruct IH as (HI & Hm & _). by apply step_error in Hs as ->.
  - destruct IH as (HI & Hm & Hg).
    split; [by eapply add_ratings_inv|]. split; [by eapply add_ratings_factors_ok|].
    destruct (add_ratings_factors extra m res m' Ha) as [Hu Hv].
    destruct g; simpl in *; try done. by rewrite Hu, Hv.
Qed.

(** An object obtained through the constructor, [add_ratings] and fitting
    never makes [log_likelihood], [gradient], [predicted_matrix] or the
    fitting generator raise: every rating index is inside the factor
    matrices, and their rows have equal lengths. *)
Theorem fitting_never_raises m g :
  session random_sample m g →
  (∃ x, model_ll m = inr x)
  ∧ (∃ grads, gradient m = inr grads)
  ∧ (∃ P, predicted_matrix m = inr P)
  ∧ ∀ n, ∃ out g' m', run n g m = (out, inr g', m').
Proof.
  intros Hs. pose proof (session_inv m g Hs) as (HI & Hm & Hg).
  split; [|split; [|split]].
  - destruct Hm as (Hu & Hv & Hsu & Hsv).
    apply (log_likelihood_total m (users m) (items m) (latent_d m)); done.
  - by apply gradient_total.
  - destruct Hm as (Hu & Hv & Hsu & Hsv).
    rewrite (predicted_matrix_eq m _ _ _ Hv Hsu Hsv). by eexists.
  - intros n. clear HI Hm Hg. revert m g Hs.
    induction n as [|n IH]; intros m g Hs; simpl; [by eexists _, _, _|].
    pose proof (session_inv m g Hs) as (HI & Hm & Hg).
    destruct (step_total g m HI Hm Hg) as (g' & m' & Hstep). rewrite Hstep.
    destruct (IH m' g') as (out & g'' & m'' & ->); [by eapply session_next|].
    by eexists _, _, _.
Qed.

(** ** The gradient, row by row *)

Lemma row_inr (a : ndarray (F := F)) (i : nat) (u : list F) :
  row a i = inr u → data a !! i = Some u.
Proof. unfold row. destruct (data a !! i); [by intros [= ->]|discriminate]. Qed.

Lemma row_iadd_lookup (a a' : ndarray (F := F)) (i k : nat) (delta : list F) :
  row_iadd a i delta = inr a' →
  data a' !! k
  = if decide (i = k) then (λ r, zip_with fadd r delta) <$> data a !! k
    else data a !! k.
Proof.
  unfold row_iadd. destruct (data a !! i) as [r|] eqn:Hr; [|discriminate].
  intros [= <-]. simpl. destruct (decide (i = k)) as [<-|Hne].
  - rewrite Hr. simpl. apply list_lookup_insert_eq. by eapply lookup_lt_Some.
  - by apply list_lookup_insert_ne.
Qed.

(** The loop of [gradient], from any starting pair of arrays. *)
Lemma gradient_loop m (l : list rating) (a b gu gv : ndarray) :
  rfold (λ grads t,
           u <- row (users m) (r_row t) ;;
           v <- row (items m) (r_col t) ;;
           r_hat <- dot u v ;;
           let c := fdiv (fsub (r_val t) r_hat) (sigma_sq m) in
           grad_u <- row_iadd grads.1 (r_row t) (map (λ x, fmul x c) v) ;;
           grad_v <- row_iadd grads.2 (r_col t) (map (λ x, fmul x c) u) ;;
           inr (grad_u, grad_v))
        l (a, b) = inr (gu, gv) →
  (∀ i, data gu !! i
        = (λ r0, foldl (λ acc t, zip_with fadd acc
                                   (map (λ x, fmul x (residual m t)) (item_row m t)))
                       r0 (filter (λ t, r_row t = i) l)) <$> data a !! i)
  ∧ (∀ j, data gv !! j
          = (λ r0, foldl (λ acc t, zip_with fadd acc
                                     (map (λ x, fmul x (residual m t)) (user_row m t)))
                         r0 (filter (λ t, r_col t = j) l)) <$> data b !! j).
Proof.
  revert a b. induction l as [|t l IH]; intros a b; simpl.
  - intros [= <- <-]. split; intros k.
    + by destruct (data a !! k).
    + by destruct (data b !! k).
  - destruct (row (users m) (r_row t)) as [e|u] eqn:Hu; simpl; [discriminate|].
    destruct (row (items m) (r_col t)) as [e|v] eqn:Hv; simpl; [discriminate|].
    destruct (dot u v) as [e|r_hat] eqn:Hd; simpl; [discriminate|].
    destruct (row_iadd a _ _) as [e|a'] eqn:Ha; simpl; [discriminate|].
    destruct (row_iadd b _ _) as [e|b'] eqn:Hb; simpl; [discriminate|].
    intros Hrest. destruct (IH a' b' Hrest) as [IHu IHv].
    apply row_inr in Hu, Hv.
    assert (r_hat = fsum (zip_with fmul u v)) as ->.
    { unfold dot in Hd. destruct (_ =? _); [by injection Hd|discriminate]. }
    assert (fdiv (fsub (r_val t) (fsum (zip_with fmul u v))) (sigma_sq m) = residual m t)
      as Hres by (unfold residual, user_row, item_row; by rewrite Hu, Hv).
    rewrite Hres in Ha, Hb.
    assert (item_row m t = v) as Hiv by (unfold item_row; by rewrite Hv).
    assert (user_row m t = u) as Hiu by (unfold user_row; by rewrite Hu).
    split; intros k.
    + rewrite IHu, (row_iadd_lookup a a' _ k _ Ha).
      destruct (decide (r_row t = k)) as [Hk|Hk].
      * rewrite filter_cons_True by done. simpl. rewrite Hiv.
        by destruct (data a !! k).
      * by rewrite filter_cons_False.
    + rewrite IHv, (row_iadd_lookup b b' _ k _ Hb).
      destruct (decide (r_col t = k)) as [Hk|Hk].
      * rewrite filter_cons_True by done. simpl. rewrite Hiu.
        by destruct (data b !! k).
      * by rewrite filter_cons_False.
Qed.

(** What [gradient] returns: row [i] of the first array is
    [-users[i] / sigma_u_sq] plus, for each rating [(i, j, r)] of that row in
    the order of the rating sequence, [items[j] * (r - r_hat) / sigma_sq];
    the second array likewise with rows and columns exchanged.  Both arrays
    have as many rows as the factor matrix they belong to. *)
Theorem gradient_rows m (grad_u grad_v : ndarray) :
  gradient m = inr (grad_u, grad_v) →
  (∀ i, data grad_u !! i = grad_u_row m i <$> data (users m) !! i)
  ∧ (∀ j, data grad_v !! j = grad_v_row m j <$> data (items m) !! j)
  ∧ length (data grad_u) = length (data (users m))
  ∧ length (data grad_v) = length (data (items m)).
Proof.
  unfold gradient. intros Hg. apply gradient_loop in Hg as [Hu Hv]. simpl in *.
  assert (∀ i, data grad_u !! i = grad_u_row m i <$> data (users m) !! i) as Hu'.
  { intros i. rewrite Hu, lookup_map. unfold grad_u_row.
    by destruct (data (users m) !! i). }
  assert (∀ j, data grad_v !! j = grad_v_row m j <$> data (items m) !! j) as Hv'.
  { intros j. rewrite Hv, lookup_map. unfold grad_v_row.
    by destruct (data (items m) !! j). }
  split; [done|]. split; [done|].
  assert (∀ (A B : Type) (f : nat → A → B) (l : list A) (k : list B),
            (∀ i, k !! i = f i <$> l !! i) → length k = length l) as Hlen.
  { intros A B f l k H. apply Nat.le_antisymm.
    - destruct (decide (length k ≤ length l)) as [|Hn]; [done|].
      assert (is_Some (k !! length l)) as [x Hx] by (apply lookup_lt_is_Some; lia).
      rewrite H in Hx. by rewrite (lookup_ge_None_2 l (length l)) in Hx.
    - destruct (decide (length l ≤ length k)) as [|Hn]; [done|].
      assert (is_Some (l !! length k)) as [x Hx] by (apply lookup_lt_is_Some; lia).
      specialize (H (length k)). rewrite Hx in H.
      by rewrite (lookup_ge_None_2 k (length k)) in H. }
  split; by eapply Hlen.
Qed.

(** ** The values a fit emits *)

Lemma run_finished (n : nat) m : run n Finished m = ([], inr Finished, m).
Proof. induction n as [|n IH]; simpl; [done|]. munfold. by rewrite IH. Qed.

Lemma run_converged (n : nat) (lr ll : F) m :
  run n (Yielded lr ll true) m
  = ([], inr (match n with 0 => Yielded lr ll true | S _ => Finished end), m).
Proof.
  destruct n as [|n]; simpl; [done|]. munfold. by rewrite run_finished.
Qed.

Lemma default_last_cons (p x : F) (l : list F) :
  default p (last (x :: l)) = default x (last l).
Proof. rewrite last_cons. by destruct (last l). Qed.

(** From a point where the generator's [old_ll] is the log-likelihood of the
    object (at the start it has yet to read it). *)
Lemma run_trace_from (n : nat) g m (p : F) out r m' :
  match g with
  | Start => True
  | Propose _ old_ll _ _ => old_ll = p
  | Yielded _ new_ll _ => new_ll = p
  | Finished => False
  end →
  model_ll m = inr p → run n g m = (out, r, m') →
  ∃ acc, increasing p acc
         ∧ model_ll m' = inr (default p (last acc))
         ∧ (out = acc
            ∨ ∃ x lr, out = acc ++ [x]
                      ∧ fgt x (default p (last acc)) = false
                      ∧ (r = inr (Yielded lr x true) ∨ r = inr Finished)).
Proof.
  revert g m p out r m'. induction n as [|n IH]; intros g m p out r m' Hg Hll.
  { simpl. intros [= <- <- <-]. exists []. split; [done|]. split; [done|by left]. }
  simpl. destruct g as [|lr old gu gv|lr ll c|]; try done.
  - unfold step. munfold. unfold model_ll in Hll. rewrite Hll, enter_loop_eq.
    destruct (gradient m) as [e|grads];
      [intros [= <- <- <-]; exists []; split; [done|]; split; [done|by left]|].
    destruct (run n _ _) as [[out' r'] m''] eqn:Hrun. intros [= <- <- <-].
    refine (IH _ _ p _ _ _ _ Hll Hrun). done.
  - subst p. rewrite step_propose_eq.
    destruct (broadcast2 fadd (users m) _) as [e|nu];
      [intros [= <- <- <-]; exists []; split; [done|]; split; [done|by left]|].
    destruct (broadcast2 fadd (items m) _) as [e|ni];
      [intros [= <- <- <-]; exists []; split; [done|]; split; [done|by left]|].
    destruct (log_likelihood m (Some nu) (Some ni)) as [e|new_ll] eqn:Hnew;
      [intros [= <- <- <-]; exists []; split; [done|]; split; [done|by left]|].
    destruct (fgt new_ll old) eqn:Hgt.
    + destruct (run n _ _) as [[out' r'] m''] eqn:Hrun. intros [= <- <- <-].
      destruct (IH (Yielded _ new_ll _) (set_items ni (set_users nu m)) new_ll _ _ _
                  eq_refl Hnew Hrun)
        as (acc & Hinc & Hm' & Hout).
      exists (new_ll :: acc). split; [done|]. rewrite default_last_cons.
      split; [done|]. destruct Hout as [->|(x & lr' & -> & Hx & Hr)]; [by left|].
      right. by exists x, lr'.
    + destruct (flt _ _).
      * rewrite run_converged. intros [= <- <- <-]. exists []. split; [done|].
        split; [done|]. right. eexists new_ll, _. simpl. split; [done|].
        split; [done|]. destruct n; [by left|by right].
      * destruct (run n _ _) as [[out' r'] m''] eqn:Hrun. intros [= <- <- <-].
        refine (IH _ _ old _ _ _ _ Hll Hrun). done.
  - subst p. cbn [step]. rewrite enter_loop_eq. destruct c.
    + rewrite run_finished. intros [= <- <- <-]. exists [].
      split; [done|]. split; [done|by left].
    + destruct (gradient m) as [e|grads];
        [intros [= <- <- <-]; exists []; split; [done|]; split; [done|by left]|].
      destruct (run n _ _) as [[out' r'] m''] eqn:Hrun. intros [= <- <- <-].
      refine (IH _ _ ll _ _ _ _ Hll Hrun). done.
Qed.

(** The values a fitting generator emits, started on an object of
    log-likelihood [old_ll] and run for any number of transitions: they begin
    with a chain of accepted values, each strictly above the one before (the
    first above [old_ll]), and the object's log-likelihood is then the last
    of the chain.  At most one more value follows, the rejected proposal that
    ended the fit on the minimum learning rate; it does not exceed the last
    accepted one, and the generator is then converged. *)
Theorem fit_lls_trace (n : nat) m (old_ll : F) out r m' :
  model_ll m = inr old_ll → run n Start m = (out, r, m') →
  ∃ acc, increasing old_ll acc
         ∧ model_ll m' = inr (default old_ll (last acc))
         ∧ (out = acc
            ∨ ∃ x lr, out = acc ++ [x]
                      ∧ fgt x (default old_ll (last acc)) = false
                      ∧ (r = inr (Yielded lr x true) ∨ r = inr Finished)).
Proof.
  intros Hll Hrun.
  destruct (run_trace_from n Start m old_ll out r m' I Hll Hrun)
    as (acc & Hinc & Hm' & Hout).
  exists acc. split; [exact Hinc|]. split; [exact Hm'|exact Hout].
Qed.

Lemma run_total (n : nat) m g :
  session random_sample m g → ∃ out g' m', run n g m = (out, inr g', m').
Proof.
  revert m g. induction n as [|n IH]; intros m g Hs; simpl; [by eexists _, _, _|].
  pose proof (session_inv m g Hs) as (HI & Hm & Hg).
  destruct (step_total g m HI Hm Hg) as (g' & m' & Hstep). rewrite Hstep.
  destruct (IH m' g') as (out & g'' & m'' & ->); [by eapply session_next|].
  by eexists _, _, _.
Qed.

Lemma run_frame (n : nat) g m :
  ratings (run n g m).2 = ratings m
  ∧ rated (run n g m).2 = rated m
  ∧ unrated (run n g m).2 = unrated m
  ∧ num_users (run n g m).2 = num_users m
  ∧ num_items (run n g m).2 = num_items m
  ∧ latent_d (run n g m).2 = latent_d m.
Proof.
  revert g m. induction n as [|n IH]; intros g m; simpl; [done|].
  destruct (step g m) as [[e|g'] m1] eqn:Hs; simpl.
  - by apply step_error in Hs as ->.
  - specialize (IH g' m1). destruct (run n g' m1) as [[out r] m2]. simpl in *.
    apply step_frame in Hs as [->|(u & v & ->)]; [done|]. simpl in IH. done.
Qed.

(** Fitting assigns nothing but the two factor matrices: the rating
    sequence, the rated and unrated sets, the dimensions and the latent
    dimension are as before, after any number of transitions from any point
    of the generator. *)
Theorem fitting_keeps_data (n : nat) g m out r m' :
  run n g m = (out, r, m') →
  ratings m' = ratings m ∧ rated m' = rated m ∧ unrated m' = unrated m
  ∧ num_users m' = num_users m ∧ num_items m' = num_items m
  ∧ latent_d m' = latent_d m.
Proof.
  intros Hrun. pose proof (run_frame n g m) as H. rewrite Hrun in H. exact H.
Qed.

(** [fit] on an object obtained through the constructor, [add_ratings] and
    fitting: if it returns, it returns normally, the rating data are as
    before, and the object's log-likelihood is the end of a strictly
    increasing chain that starts at its log-likelihood before the call. *)
Theorem fit_improves (fuel : nat) m g res m' :
  session random_sample m g → fit fuel m = Some (res, m') →
  res = inr tt
  ∧ ratings m' = ratings m ∧ rated m' = rated m ∧ unrated m' = unrated m
  ∧ ∃ old_ll acc,
      model_ll m = inr old_ll ∧ increasing old_ll acc
      ∧ model_ll m' = inr (default old_ll (last acc)).
Proof.
  intros Hs. unfold fit.
  pose proof (session_inv m g Hs) as (HI & Hm & _).
  assert (session random_sample m Start) as Hs0 by (by eapply session_fit_lls).
  destruct (run_total fuel m Start Hs0) as (out & g1 & m1 & Hrun).
  pose proof (run_frame fuel Start m) as Hframe.
  rewrite Hrun in *. simpl in Hframe.
  destruct g1; try discriminate. intros [= <- <-].
  destruct Hframe as (-> & -> & -> & _).
  do 4 (split; [done|]).
  destruct Hm as (Hu & Hv & Hsu & Hsv).
  destruct (log_likelihood_total m (users m) (items m) (latent_d m) HI Hu Hv Hsu Hsv)
    as (old_ll & Hll).
  destruct (run_trace_from fuel Start m old_ll out (inr Finished) m1 I Hll Hrun)
    as (acc & ? & ? & _).
  by exists old_ll, acc.
Qed.

(** ** [rmse] under broadcasting *)

Lemma predicted_matrix_wf m :
  factors_ok m →
  ∃ P, predicted_matrix m = inr P ∧ wf_array P
       ∧ shape P = (num_users m, num_items m).
Proof.
  intros (Hwu & Hwv & Hu & Hv).
  rewrite (predicted_matrix_eq m _ _ _ Hwv Hu Hv). eexists. split; [done|].
  split; [|done]. split; simpl.
  - rewrite length_map. destruct Hwu as [-> _]. by rewrite Hu.
  - apply Forall_forall. intros prow (u & -> & _)%elem_of_map.
    rewrite length_map. destruct Hwv as [-> _]. by rewrite Hv.
Qed.

Lemma bdim_Some_iff (a b : nat) :
  is_Some (bdim a b) ↔ a = b ∨ a = 1 ∨ b = 1.
Proof.
  destruct (bdim a b) as [c|] eqn:H.
  - split; [|by eexists]. intros _.
    destruct (decide (a = b)); [by left|]. destruct (decide (a = 1)); [by right; left|].
    destruct (decide (b = 1)); [by right; right|].
    assert (bdim a b = None) by (by apply bdim_None). congruence.
  - apply bdim_None in H as (? & ? & ?). split; [by intros [? [=]]|]. lia.
Qed.

(** [rmse] returns a number exactly when the shape of the given matrix can be
    broadcast against [(num_users, num_items)]: in each dimension the lengths
    are equal or one of them is 1.  It raises nothing but [ValueError]. *)
Theorem rmse_returns_iff m (real : ndarray) :
  factors_ok m →
  ((∃ x, rmse m real = inr x)
   ↔ ((shape real).1 = num_users m ∨ (shape real).1 = 1 ∨ num_users m = 1)
     ∧ ((shape real).2 = num_items m ∨ (shape real).2 = 1 ∨ num_items m = 1))
  ∧ ∀ e, rmse m real = inl e → e = ValueError.
Proof.
  intros Hm. destruct (predicted_matrix_wf m Hm) as (P & HP & _ & HsP).
  unfold rmse. rewrite HP. simpl. unfold broadcast2. rewrite HsP. simpl.
  rewrite <- !bdim_Some_iff.
  destruct (bdim (shape real).1 (num_users m)) as [r|];
    destruct (bdim (shape real).2 (num_items m)) as [c|]; simpl.
  - split; [|discriminate]. split; [|by eexists]. intros _. split; by eexists.
  - split; [|by intros e [= <-]]. split; [by intros [? [=]]|]. by intros [_ [? [=]]].
  - split; [|by intros e [= <-]]. split; [by intros [? [=]]|]. by intros [[? [=]] _].
  - split; [|by intros e [= <-]]. split; [by intros [? [=]]|]. by intros [[? [=]] _].
Qed.

Lemma bdim_1_l (n : nat) : bdim 1 n = Some n.
Proof.
  unfold bdim. destruct (1 =? n) eqn:H; [|done].
  apply Nat.eqb_eq in H. by subst.
Qed.

Lemma zip_with_replicate_rows (op : F → F → F) (c : F) (n k : nat) (l : list (list F)) :
  length l = n → Forall (λ r, length r = k) l →
  zip_with (zip_with op) (replicate n (replicate k c)) l = map (map (op c)) l.
Proof.
  intros Hn Hk. rewrite zip_with_replicate_l by lia.
  change (map ?f l) with (f <$> l).
  apply Forall_fmap_ext_1. eapply Forall_impl; [exact Hk|].
  intros r Hr. simpl in *. by rewrite zip_with_replicate_l by lia.
Qed.

(** A 1 x 1 matrix is broadcast against the whole prediction: [rmse] compares
    its one entry with every predicted entry, and divides the sum of the
    squares by the size of the given matrix, which is 1. *)
Theorem rmse_scalar m (c : F) :
  factors_ok m →
  ∃ P, predicted_matrix m = inr P
       ∧ rmse m {| shape := (1, 1); data := [[c]] |}
         = inr (fsqrt (fdiv (fsum (map (λ p, fsq (fsub c p)) (concat (data P))))
                            (of_int 1))).
Proof.
  intros Hm. destruct (predicted_matrix_wf m Hm) as (P & HP & HwP & HsP).
  exists P. split; [done|]. unfold rmse. rewrite HP. simpl.
  unfold broadcast2. simpl. rewrite HsP, !bdim_1_l. simpl.
  replace (expand (num_users m, num_items m) P) with (data P)
    by (rewrite <- HsP; symmetry; by apply expand_id).
  unfold expand. simpl. unfold asize. simpl. do 3 f_equal.
  destruct HwP as [Hlen Hrows]. rewrite HsP in Hlen, Hrows. simpl in *.
  rewrite zip_with_replicate_rows by done.
  unfold asum, amap. simpl. f_equal.
  rewrite map_map, concat_map. f_equal.
  apply map_ext. intros row. by rewrite map_map.
Qed.

(** ** Exceptions of [log_likelihood] *)

Lemma rfold_error {A B} (f : A → B → result A) (l : list B) (a : A) (e : exn) :
  rfold f l a = inl e → ∃ a' x, x ∈ l ∧ f a' x = inl e.
Proof.
  revert a. induction l as [|x l IH]; intros a; simpl; [discriminate|].
  destruct (f a x) as [e'|a'] eqn:Hf; simpl.
  - intros [= <-]. exists a, x. split; [apply list_elem_of_here|done].
  - intros (a0 & y & Hy & Hfy)%IH. exists a0, y.
    split; [by apply list_elem_of_further|done].
Qed.

(** [log_likelihood(U, V)] raises in two cases only: [IndexError], when a
    rating's row index is beyond the rows of [U] or its column index beyond
    the rows of [V]; and [ValueError], when the two rows a rating refers to
    have different lengths. *)
Theorem log_likelihood_errors m (U V : ndarray) (e : exn) :
  log_likelihood m (Some U) (Some V) = inl e →
  ∃ t, t ∈ rows (ratings m)
       ∧ ((e = IndexError
           ∧ (length (data U) ≤ r_row t ∨ length (data V) ≤ r_col t))
          ∨ (e = ValueError
             ∧ ∃ u v, data U !! r_row t = Some u ∧ data V !! r_col t = Some v
                      ∧ length u ≠ length v)).
Proof.
  rewrite log_likelihood_eq.
  destruct (rfold _ _ _) as [e'|sq] eqn:Hfold; simpl; [|discriminate].
  intros [= ->]. apply rfold_error in Hfold as (a & t & Ht & Hbody).
  exists t. split; [done|]. revert Hbody. unfold row.
  destruct (data U !! r_row t) as [u|] eqn:Hu; simpl.
  2:{ intros [= <-]. left. split; [done|]. left. by apply lookup_ge_None. }
  destruct (data V !! r_col t) as [v|] eqn:Hv; simpl.
  2:{ intros [= <-]. left. split; [done|]. right. by apply lookup_ge_None. }
  unfold dot. destruct (length u =? length v) eqn:Hlen; simpl; [discriminate|].
  intros [= <-]. right. split; [done|]. exists u, v.
  split; [done|]. split; [done|]. by apply Nat.eqb_neq.
Qed.

(** ** A batch that rates one cell twice *)

(** [add_ratings] compares the cells of a batch with the unrated set, not
    with each other: a batch holding two ratings for one unrated cell goes
    through, both ratings are appended, and the rating sequence is then
    longer than the rated set is large. *)
Theorem add_ratings_repeated_cell m (i j : nat) (r1 r2 : F) :
  reachable random_sample m → (i, j) ∈ unrated m →
  ∃ m', add_ratings {| shape1 := 3;
                       rows := [ {| r_row := i; r_col := j; r_val := r1 |};
                                 {| r_row := i; r_col := j; r_val := r2 |} ] |} m
        = (inr tt, m')
        ∧ rows (ratings m')
          = rows (ratings m) ++ [ {| r_row := i; r_col := j; r_val := r1 |};
                                  {| r_row := i; r_col := j; r_val := r2 |} ]
        ∧ rated m' = rated m ∪ {[ (i, j) ]}
        ∧ size (rated m') < length (rows (ratings m')).
Proof.
  intros HI%reachable_inv Hun.
  set (t1 := {| r_row := i; r_col := j; r_val := r1 |}).
  set (t2 := {| r_row := i; r_col := j; r_val := r2 |}).
  rewrite add_ratings_ok; [|done|done|done|].
  2:{ intros t [->| ->%list_elem_of_singleton]%elem_of_cons; done. }
  eexists. split; [done|]. simpl. split; [done|].
  assert (list_to_set (C := gset (nat * nat)) (map index_pair [t1; t2]) = {[ (i, j) ]})
    as Hset by (simpl; unfold index_pair; simpl; set_solver).
  simpl in Hset. rewrite Hset. split; [done|].
  assert ((i, j) ∉ rated m) as Hnot.
  { rewrite (inv_unrated m HI) in Hun. by apply elem_of_difference in Hun as [_ ?]. }
  rewrite size_union, size_singleton by set_solver.
  rewrite length_app. simpl.
  assert (size (rated m) ≤ length (rows (ratings m))); [|lia].
  rewrite (inv_rated m HI).
  etrans; [|by rewrite <- (length_map index_pair)].
  generalize (map index_pair (rows (ratings m))) as l. clear.
  induction l as [|p l IH].
  - by rewrite list_to_set_nil, size_empty.
  - rewrite list_to_set_cons, size_union_alt, size_singleton.
    assert (list_to_set l ∖ {[p]} ⊆ list_to_set (C := gset (nat * nat)) l) as Hsub
      by (clear; set_solver).
    apply subseteq_size in Hsub. simpl. lia.
Qed.

End MoreProperties.

(** * Closed instances of the further properties *)

Lemma ex_model_session : session counter_sample ex_model Finished.
Proof.
  apply (session_construct counter_sample ex_ratings 1 0 4).
  vm_compute. reflexivity.
Defined.

Lemma dimensions_tight_witness :
  reachable counter_sample ex_model
  ∧ (∀ t, t ∈ rows (ratings ex_model) →
          r_row t < num_users ex_model ∧ r_col t < num_items ex_model)
  ∧ (∃ t, t ∈ rows (ratings ex_model) ∧ r_row t + 1 = num_users ex_model)
  ∧ (∃ t, t ∈ rows (ratings ex_model) ∧ r_col t + 1 = num_items ex_model).
Proof.
  split; [exact ex_model_reachable|].
  exact (dimensions_tight counter_sample ex_model ex_model_reachable).
Defined.

Lemma rated_mirrors_ratings_witness :
  reachable counter_sample ex_model
  ∧ ((1, 1) ∈ unrated ex_model ↔
       1 < num_users ex_model ∧ 1 < num_items ex_model
       ∧ ¬ ∃ t, t ∈ rows (ratings ex_model) ∧ r_row t = 1 ∧ r_col t = 1).
Proof.
  split; [exact ex_model_reachable|].
  exact (proj2 (rated_mirrors_ratings counter_sample ex_model 1 1 ex_model_reachable)).
Defined.

Lemma add_ratings_failure_witness :
  reachable counter_sample ex_model
  ∧ add_ratings dup_far_extra ex_model = (inl AssertionError, ex_model)
  ∧ ∃ t, t ∈ rows dup_far_extra
         ∧ (num_users ex_model ≤ r_row t ∨ num_items ex_model ≤ r_col t).
Proof.
  assert (add_ratings dup_far_extra ex_model = (inl AssertionError, ex_model)) as H
    by (vm_compute; reflexivity).
  split; [exact ex_model_reachable|]. split; [exact H|].
  exact (proj2 (add_ratings_failure counter_sample ex_model dup_far_extra
                  AssertionError ex_model ex_model_reachable H)).
Defined.

Lemma add_ratings_success_witness :
  reachable counter_sample ex_model
  ∧ add_ratings ex_extra ex_model = (inr tt, after_add ex_extra ex_model)
  ∧ rows (ratings (after_add ex_extra ex_model))
    = rows (ratings ex_model) ++ rows ex_extra
  ∧ users (after_add ex_extra ex_model) = users ex_model.
Proof.
  assert (add_ratings ex_extra ex_model = (inr tt, after_add ex_extra ex_model)) as H
    by (vm_compute; reflexivity).
  split; [exact ex_model_reachable|]. split; [exact H|].
  destruct (proj2 (add_ratings_success counter_sample ex_model ex_extra
                     ex_model_reachable) _ H) as (Hrows & _ & _ & Hu & _).
  split; [exact Hrows|exact Hu].
Defined.

Lemma add_rating_twice_witness :
  reachable counter_sample ex_model ∧ (1, 1) ∈ unrated ex_model
  ∧ ∃ m1, add_rating 1 1 (of_int 2) ex_model = (inr tt, m1)
          ∧ add_rating 1 1 (of_int 3) m1 = (inl ValueError, m1).
Proof.
  assert ((1, 1) ∈ unrated ex_model) as Hun by (vm_compute; reflexivity).
  split; [exact ex_model_reachable|]. split; [exact Hun|].
  destruct (add_rating_twice counter_sample ex_model 1 1 (of_int 2) (of_int 3)
              ex_model_reachable Hun) as (m1 & H1 & _ & _ & _ & H2).
  exists m1. split; [exact H1|exact H2].
Defined.

Lemma construct_outcome_witness :
  in_int_range ex_ratings 1 = true
  ∧ in_int_range (F := float) {| shape1 := 3; rows := [] |} 1 = true
  ∧ (∃ m, construct counter_sample ex_ratings 1 0 = (inr m, 4)
          ∧ ratings m = ex_ratings ∧ factors_ok m
          ∧ 4 = after_draws counter_sample ((num_users m + num_items m) * 1) 0)
  ∧ construct counter_sample {| shape1 := 3; rows := [] |} 1 0 = (inl ValueError, 0).
Proof.
  assert (in_int_range ex_ratings 1 = true) as H1 by (vm_compute; reflexivity).
  assert (in_int_range (F := float) {| shape1 := 3; rows := [] |} 1 = true) as H2
    by (vm_compute; reflexivity).
  split; [exact H1|]. split; [exact H2|]. split.
  - pose proof (construct_outcome counter_sample ex_ratings 1 0 H1) as H.
    assert (construct counter_sample ex_ratings 1 0 = (inr ex_model, 4)) as Hc
      by (vm_compute; reflexivity).
    rewrite Hc in H. destruct H as (_ & _ & Hr & _ & _ & Hok & Hd).
    exists ex_model. split; [exact Hc|]. split; [exact Hr|].
    split; [exact Hok|exact Hd].
  - vm_compute. reflexivity.
Defined.

Lemma cell_count_witness :
  reachable counter_sample ex_model
  ∧ size (rated ex_model) + size (unrated ex_model)
    = num_users ex_model * num_items ex_model.
Proof.
  split; [exact ex_model_reachable|].
  exact (proj1 (cell_count counter_sample ex_model ex_model_reachable)).
Defined.

Lemma setstate_unknown_key_witness :
  setstate [("latent_d"%string, VInt 3)] ex_model = (inr tt, set_latent_d 3 ex_model)
  ∧ assoc "lr" attr_names = None
  ∧ setstate ([("latent_d"%string, VInt 3)]
              ++ ("lr"%string, VFloat (of_int 1)) :: [("num_users"%string, VInt 9)])
             ex_model
    = (inl AttributeError, set_latent_d 3 ex_model).
Proof.
  assert (setstate [("latent_d"%string, VInt 3)] ex_model
          = (inr tt, set_latent_d 3 ex_model)) as H by reflexivity.
  split; [exact H|]. split; [reflexivity|].
  exact (setstate_unknown_key _ _ "lr" _ ex_model _ H eq_refl).
Defined.

Lemma setstate_frame_witness :
  setstate [("latent_d"%string, VInt 3)] ex_model = (inr tt, set_latent_d 3 ex_model)
  ∧ (∀ k v, (k, v) ∈ [("latent_d"%string, VInt (F := float) 3)] →
            assoc k attr_names ≠ Some a_users)
  ∧ getattr a_users (set_latent_d 3 ex_model) = getattr a_users ex_model.
Proof.
  assert (setstate [("latent_d"%string, VInt 3)] ex_model
          = (inr tt, set_latent_d 3 ex_model)) as H by reflexivity.
  assert (∀ k v, (k, v) ∈ [("latent_d"%string, VInt (F := float) 3)] →
                 assoc k attr_names ≠ Some a_users) as Hk.
  { intros k v Hin. apply list_elem_of_singleton in Hin. injection Hin as -> _.
    discriminate. }
  split; [exact H|]. split; [exact Hk|].
  exact (setstate_frame _ ex_model _ _ a_users H Hk).
Defined.

Lemma fitting_never_raises_witness :
  session counter_sample ex_model Finished
  ∧ (∃ x, model_ll ex_model = inr x)
  ∧ ∃ grads, gradient ex_model = inr grads.
Proof.
  split; [exact ex_model_session|].
  destruct (fitting_never_raises counter_sample ex_model Finished ex_model_session)
    as (Hll & Hg & _).
  split; [exact Hll|exact Hg].
Defined.

Lemma gradient_rows_witness :
  ∃ grad_u grad_v,
    gradient ex_model = inr (grad_u, grad_v)
    ∧ (∀ i, data grad_u !! i = grad_u_row ex_model i <$> data (users ex_model) !! i)
    ∧ length (data grad_u) = length (data (users ex_model)).
Proof.
  eexists _, _.
  refine ((λ H, conj H (conj (proj1 (gradient_rows ex_model _ _ H))
                              (proj1 (proj2 (proj2 (gradient_rows ex_model _ _ H)))))) _).
  vm_compute. reflexivity.
Defined.

Lemma fit_lls_trace_witness :
  ∃ old_ll out r m',
    model_ll ex_model = inr old_ll
    ∧ run 3 Start ex_model = (out, r, m')
    ∧ ∃ acc, increasing old_ll acc
             ∧ model_ll m' = inr (default old_ll (last acc))
             ∧ (out = acc
                ∨ ∃ x lr, out = acc ++ [x]
                          ∧ fgt x (default old_ll (last acc)) = false
                          ∧ (r = inr (Yielded lr x true) ∨ r = inr Finished)).
Proof.
  eexists _, _, _, _.
  split; [vm_compute; reflexivity|]. split; [vm_compute; reflexivity|].
  apply (fit_lls_trace 3 ex_model); vm_compute; reflexivity.
Defined.

Lemma fitting_keeps_data_witness :
  ∃ out r m',
    run 3 Start ex_model = (out, r, m')
    ∧ ratings m' = ratings ex_model ∧ rated m' = rated ex_model
    ∧ unrated m' = unrated ex_model
    ∧ num_users m' = num_users ex_model ∧ num_items m' = num_items ex_model
    ∧ latent_d m' = latent_d ex_model.
Proof.
  eexists _, _, _.
  refine ((λ H, conj H (fitting_keeps_data 3 Start ex_model _ _ _ H)) _).
  vm_compute. reflexivity.
Defined.

Lemma fit_improves_witness :
  session counter_sample ex_model Finished
  ∧ ∃ m', fit 3 ex_model = Some (inr tt, m')
          ∧ ratings m' = ratings ex_model
          ∧ ∃ old_ll acc,
              model_ll ex_model = inr old_ll ∧ increasing old_ll acc
              ∧ model_ll m' = inr (default old_ll (last acc)).
Proof.
  split; [exact ex_model_session|]. eexists.
  refine ((λ H, conj H
             (let H' := fit_improves counter_sample 3 ex_model Finished _ _
                          ex_model_session H in
              conj (proj1 (proj2 H')) (proj2 (proj2 (proj2 (proj2 H')))))) _).
  vm_compute. reflexivity.
Defined.

Lemma rmse_returns_iff_witness :
  factors_ok ex_model
  ∧ ((∃ x, rmse ex_model real_11 = inr x)
     ↔ ((shape real_11).1 = num_users ex_model ∨ (shape real_11).1 = 1
        ∨ num_users ex_model = 1)
       ∧ ((shape real_11).2 = num_items ex_model ∨ (shape real_11).2 = 1
          ∨ num_items ex_model = 1)).
Proof.
  split; [exact ex_model_factors_ok|].
  exact (proj1 (rmse_returns_iff ex_model real_11 ex_model_factors_ok)).
Defined.

Lemma rmse_scalar_witness :
  factors_ok ex_model
  ∧ ∃ P, predicted_matrix ex_model = inr P
         ∧ rmse ex_model {| shape := (1, 1); data := [[of_int 1]] |}
           = inr (fsqrt (fdiv (fsum (map (λ p, fsq (fsub (of_int 1) p))
                                         (concat (data P))))
                              (of_int 1))).
Proof.
  split; [exact ex_model_factors_ok|].
  exact (rmse_scalar ex_model (of_int 1) ex_model_factors_ok).
Defined.

Lemma log_likelihood_errors_witness :
  log_likelihood ex_model (Some (mat 1 1 [[1%Z]])) (Some (items ex_model))
    = inl IndexError
  ∧ ∃ t, t ∈ rows (ratings ex_model)
         ∧ ((IndexError = IndexError
             ∧ (length (data (mat 1 1 [[1%Z]])) ≤ r_row t
                ∨ length (data (items ex_model)) ≤ r_col t))
            ∨ (IndexError = ValueError
               ∧ ∃ u v, data (mat 1 1 [[1%Z]]) !! r_row t = Some u
                        ∧ data (items ex_model) !! r_col t = Some v
                        ∧ length u ≠ length v)).
Proof.
  assert (log_likelihood ex_model (Some (mat 1 1 [[1%Z]])) (Some (items ex_model))
          = inl IndexError) as H by (vm_compute; reflexivity).
  split; [exact H|].
  exact (log_likelihood_errors ex_model _ _ IndexError H).
Defined.

Lemma add_ratings_repeated_cell_witness :
  reachable counter_sample ex_model ∧ (1, 1) ∈ unrated ex_model
  ∧ ∃ m', add_ratings {| shape1 := 3;
                         rows := [ {| r_row := 1; r_col := 1; r_val := of_int 2 |};
                                   {| r_row := 1; r_col := 1; r_val := of_int 3 |} ] |}
                      ex_model
          = (inr tt, m')
          ∧ size (rated m') < length (rows (ratings m')).
Proof.
  assert ((1, 1) ∈ unrated ex_model) as Hun by (vm_compute; reflexivity).
  split; [exact ex_model_reachable|]. split; [exact Hun|].
  destruct (add_ratings_repeated_cell counter_sample ex_model 1 1 (of_int 2) (of_int 3)
              ex_model_reachable Hun) as (m' & Ha & _ & _ & Hlt).
  exists m'. split; [exact Ha|exact Hlt].
Defined.
